(** * Iterary backend: the rule-based trip parser and the plan-trip endpoint

    A shallow embedding of
      - [backend/app/services/trip_parser_simple.py] ([SimpleTripParser]) and
      - [backend/app/api/trip_planner.py] ([plan_trip]),
    together with the fragment of Python's [str] and [re] that they use.

    Conventions.
      - A Python [str] is a [list ascii].  Characters below 128 are ASCII and
        are classified exactly as Python classifies them.  Characters from 128
        upwards stand for characters that are neither alphanumeric nor white
        space (punctuation, symbols): they are not word characters, not
        blanks, have no case, and [lower] leaves them alone.  Letters, digits
        and blanks outside ASCII, which Python's [isupper], [lower], [\w],
        [\s], [\d] and [split] also know, are outside this alphabet: the
        properties below are about queries written in it.
      - [Optional[T]] is [option T]; Python integers are [Z].
      - Code that can raise returns a [result]. *)

From Stdlib Require Import List Ascii String ZArith NArith Bool Lia.
From Stdlib Require Import DecimalString.
Import ListNotations.

Definition str := list ascii.

(** Python string literals. *)
Definition L (s : string) : str := list_ascii_of_string s.

(* ================================================================== *)
(** ** Python [str] operations *)
(* ================================================================== *)

Module Str.

Definition code (c : ascii) : N := N_of_ascii c.

Definition between (lo hi : N) (c : ascii) : bool :=
  ((lo <=? code c) && (code c <=? hi))%N.

(** [c.isupper()] for a character of the alphabet above, and the class
    [[A-Z]]. *)
Definition isupper (c : ascii) : bool := between 65 90 c.

(** The class [[a-z]]. *)
Definition islower (c : ascii) : bool := between 97 122 c.

(** The class [\d]. *)
Definition isdigit (c : ascii) : bool := between 48 57 c.

(** The class [\s], which is also what [str.split()] splits on:
    TAB, LF, VT, FF, CR, the separators FS, GS, RS, US, and the blank. *)
Definition isspace (c : ascii) : bool :=
  between 9 13 c || between 28 32 c.

(** The class [\w]: letters, digits and the underscore. *)
Definition isword (c : ascii) : bool :=
  isupper c || islower c || isdigit c || (code c =? 95)%N.

Definition lower_char (c : ascii) : ascii :=
  if isupper c then ascii_of_N (code c + 32) else c.

(** [s.lower()] *)
Definition lower (s : str) : str := map lower_char s.

Definition eqb (a b : str) : bool :=
  if list_eq_dec ascii_dec a b then true else false.

Fixpoint startswith (p s : str) : bool :=
  match p, s with
  | [], _ => true
  | _ :: _, [] => false
  | a :: p', b :: s' => Ascii.eqb a b && startswith p' s'
  end.

(** [needle in hay] *)
Fixpoint contains (needle hay : str) : bool :=
  startswith needle hay ||
  match hay with
  | [] => false
  | _ :: hay' => contains needle hay'
  end.

(** [s.split()]: the maximal runs of non-blank characters, in order.
    [cur] holds the current run, reversed. *)
Fixpoint split_aux (cur : str) (s : str) : list str :=
  match s with
  | [] => match cur with [] => [] | _ => [rev cur] end
  | c :: s' =>
      if isspace c
      then match cur with
           | [] => split_aux [] s'
           | _ => rev cur :: split_aux [] s'
           end
      else split_aux (c :: cur) s'
  end.

Definition split (s : str) : list str := split_aux [] s.

(** [bool(s)] for a string. *)
Definition truthy (s : str) : bool :=
  match s with [] => false | _ => true end.

End Str.

(* ================================================================== *)
(** ** Exceptions *)
(* ================================================================== *)

(** The exceptions the two modules can see.  [HTTPException] is FastAPI's;
    [Error d] is any other instance of [Exception], with [str(e) = d]. *)
Inductive exn : Type :=
| HTTPException (status_code : Z) (detail : str)
| Error (description : str).

Inductive result (A : Type) : Type :=
| Ok (a : A)
| Raise (e : exn).

Arguments Ok {A} a.
Arguments Raise {A} e.

Definition bind {A B : Type} (m : result A) (f : A -> result B) : result B :=
  match m with
  | Ok a => f a
  | Raise e => Raise e
  end.

Notation "x <- m ;; f" := (bind m (fun x => f))
  (at level 61, m at next level, right associativity).

(* ================================================================== *)
(** ** The fragment of [re] used by the parser *)
(* ================================================================== *)

Module Re.

(** Patterns.  Every repetition in the source is a [+] over a character
    class, so [Plus] takes the class.  The patterns have at most one capturing
    group, [Grp]. *)
Inductive regex : Type :=
| Eps
| Cls (p : ascii -> bool)        (* one character of a class *)
| Plus (p : ascii -> bool)       (* [p+], greedy *)
| Cat (r1 r2 : regex)
| Alt (r1 r2 : regex)            (* [r1|r2], left first *)
| Opt (r : regex)                (* [r?], greedy *)
| Grp (r : regex)                (* [(r)], group 1 *)
| Bnd.                           (* [\b] *)

Definition chr (c : ascii) : regex := Cls (Ascii.eqb c).

(** A literal text (what [re.escape] protects). *)
Fixpoint lit (s : str) : regex :=
  match s with
  | [] => Eps
  | c :: s' => Cat (chr c) (lit s')
  end.

(** Is the character next to the position (if any) a word character? *)
Definition word_at (s : str) : bool :=
  match s with
  | [] => false
  | c :: _ => Str.isword c
  end.

(** A continuation receives the value of group 1, the text before the
    position (reversed) and the text after it. *)
Definition cont : Type := option str -> str -> str -> option (option str).

Definition orelse {A : Type} (a b : option A) : option A :=
  match a with
  | Some x => Some x
  | None => b
  end.

(** Greedy [p+]: take as many characters as possible, give them back one at a
    time while the rest of the pattern fails. *)
Fixpoint run_plus (p : ascii -> bool) (k : cont) (g : option str)
         (b rest : str) : option (option str) :=
  match rest with
  | [] => None
  | c :: rest' =>
      if p c
      then orelse (run_plus p k g (c :: b) rest') (k g (c :: b) rest')
      else None
  end.

(** The backtracking matcher, anchored at the current position. *)
Fixpoint run (r : regex) (k : cont) (g : option str) (b rest : str)
  : option (option str) :=
  match r with
  | Eps => k g b rest
  | Cls p =>
      match rest with
      | [] => None
      | c :: rest' => if p c then k g (c :: b) rest' else None
      end
  | Plus p => run_plus p k g b rest
  | Cat r1 r2 => run r1 (run r2 k) g b rest
  | Alt r1 r2 => orelse (run r1 k g b rest) (run r2 k g b rest)
  | Opt r1 => orelse (run r1 k g b rest) (k g b rest)
  | Grp r1 =>
      run r1
          (fun _ b' rest' =>
             k (Some (rev (firstn (List.length b' - List.length b) b'))) b' rest')
          g b rest
  | Bnd => if xorb (word_at b) (word_at rest) then k g b rest else None
  end.

Definition accept : cont := fun g _ _ => Some g.

(** [re.search]: the leftmost position at which the pattern matches.  The
    result is [None] when there is no match, and otherwise [Some g] where [g]
    is [match.group(1)]. *)
Fixpoint search_from (r : regex) (b rest : str) : option (option str) :=
  match run r accept None b rest with
  | Some g => Some g
  | None =>
      match rest with
      | [] => None
      | c :: rest' => search_from r (c :: b) rest'
      end
  end.

Definition search (r : regex) (s : str) : option (option str) :=
  search_from r [] s.

(** [match.group(1)]; a group that took no part in the match. *)
Definition group1 (m : option str) : str :=
  match m with
  | Some x => x
  | None => []
  end.

Definition found (m : option (option str)) : bool :=
  match m with
  | Some _ => true
  | None => false
  end.

(** What a successful run of a pattern means: [sem r b x a g g'] says that
    [r] matches the text [x], found between [b] (the text before, reversed)
    and [a] (the text after), and takes group 1 from [g] to [g']. *)
Inductive sem : regex -> str -> str -> str -> option str -> option str -> Prop :=
| sem_eps b a g :
    sem Eps b [] a g g
| sem_cls p c b a g :
    p c = true -> sem (Cls p) b [c] a g g
| sem_plus p x b a g :
    x <> [] -> forallb p x = true -> sem (Plus p) b x a g g
| sem_cat r1 r2 x1 x2 b a g g1 g2 :
    sem r1 b x1 (x2 ++ a) g g1 ->
    sem r2 (rev x1 ++ b) x2 a g1 g2 ->
    sem (Cat r1 r2) b (x1 ++ x2) a g g2
| sem_alt_l r1 r2 x b a g g' :
    sem r1 b x a g g' -> sem (Alt r1 r2) b x a g g'
| sem_alt_r r1 r2 x b a g g' :
    sem r2 b x a g g' -> sem (Alt r1 r2) b x a g g'
| sem_opt_some r x b a g g' :
    sem r b x a g g' -> sem (Opt r) b x a g g'
| sem_opt_none r b a g :
    sem (Opt r) b [] a g g
| sem_grp r x b a g g' :
    sem r b x a g g' -> sem (Grp r) b x a g (Some x)
| sem_bnd b a g :
    xorb (word_at b) (word_at a) = true -> sem Bnd b [] a g g.

(** Patterns without a capturing group. *)
Fixpoint groupless (r : regex) : Prop :=
  match r with
  | Eps | Cls _ | Plus _ | Bnd => True
  | Cat r1 r2 | Alt r1 r2 => groupless r1 /\ groupless r2
  | Opt r1 => groupless r1
  | Grp _ => False
  end.

End Re.

(* ================================================================== *)
(** ** [SimpleTripParser] *)
(* ================================================================== *)

Module Parser.

Import Re.

(** The result dictionary of [parse]. *)
Record ParseResult : Type := mkParseResult {
  city : str;
  duration_days : option Z
}.

(** [self.cities] *)
Definition cities : list str :=
  map L
    [ (* Australia *)
      "Melbourne"; "Sydney"; "Brisbane"; "Perth"; "Adelaide"; "Darwin";
      "Canberra"; "Gold Coast"; "Cairns"; "Hobart"; "Newcastle"; "Wollongong";
      (* Asia *)
      "Tokyo"; "Osaka"; "Kyoto"; "Seoul"; "Bangkok"; "Singapore";
      "Hong Kong"; "Shanghai"; "Beijing"; "Taipei"; "Manila"; "Jakarta";
      (* Europe *)
      "London"; "Paris"; "Berlin"; "Rome"; "Barcelona"; "Amsterdam";
      "Madrid"; "Vienna"; "Prague"; "Budapest"; "Athens"; "Lisbon";
      (* Americas *)
      "New York"; "Los Angeles"; "San Francisco"; "Chicago"; "Miami"; "Boston";
      "Toronto"; "Vancouver"; "Mexico City"; "Buenos Aires"; "Rio de Janeiro";
      (* Others *)
      "Dubai"; "Cairo"; "Cape Town"; "Auckland"; "Wellington" ]%string.

(** *** [_extract_city] *)

(** [r'\b' + re.escape(w) + r'\b'] *)
Definition word_pattern (w : str) : regex := Cat Bnd (Cat (lit w) Bnd).

(** The test of the first loop, for one city. *)
Definition known_city_test (query_lower city : str) : bool :=
  Str.contains (Str.lower city) query_lower
  && found (search (word_pattern (Str.lower city)) query_lower).

(** The first loop: the first listed city that passes the test. *)
Definition known_city (query_lower : str) : option str :=
  find (known_city_test query_lower) cities.

(** [[A-Z][a-z]+] *)
Definition capitalized : regex := Cat (Cls Str.isupper) (Plus Str.islower).

(** [[A-Z][a-z]+(?:\s+[A-Z][a-z]+)?] *)
Definition phrase : regex :=
  Cat capitalized (Opt (Cat (Plus Str.isspace) capitalized)).

(** [\b(?:in|to|visiting|going to|traveling to)\s+(<phrase>)] *)
Definition pattern_a : regex :=
  Cat Bnd
    (Cat (Alt (lit (L "in"))
         (Alt (lit (L "to"))
         (Alt (lit (L "visiting"))
         (Alt (lit (L "going to"))
              (lit (L "traveling to"))))))
    (Cat (Plus Str.isspace) (Grp phrase))).

(** [\b(<phrase>)\s+(?:for|from|starting)] *)
Definition pattern_b : regex :=
  Cat Bnd
    (Cat (Grp phrase)
    (Cat (Plus Str.isspace)
         (Alt (lit (L "for")) (Alt (lit (L "from")) (lit (L "starting")))))).

Definition patterns : list regex := [pattern_a; pattern_b].

Definition stoplist : list str :=
  map L [ "nov"; "dec"; "jan"; "feb"; "mar"; "apr";
          "may"; "jun"; "jul"; "aug"; "sep"; "oct";
          "the"; "and"; "for"; "with"; "from" ]%string.

Definition stoplisted (potential_city : str) : bool :=
  existsb (Str.eqb (Str.lower potential_city)) stoplist.

(** The second loop, over the contextual patterns. *)
Fixpoint contextual (ps : list regex) (query : str) : option str :=
  match ps with
  | [] => None
  | pattern :: ps' =>
      match search pattern query with
      | Some m =>
          let potential_city := group1 m in
          if negb (stoplisted potential_city)
          then Some potential_city
          else contextual ps' query
      | None => contextual ps' query
      end
  end.

(** [re.sub(r'[^\w\s]', '', word)] *)
Definition clean (word : str) : str :=
  filter (fun c => Str.isword c || Str.isspace c) word.

(** [clean_word and clean_word[0].isupper() and len(clean_word) > 2] *)
Definition candidate (clean_word : str) : bool :=
  match clean_word with
  | [] => false
  | c :: _ => Str.isupper c && (2 <? List.length clean_word)%nat
  end.

(** The inner loop of the scan: the listed city equal to the word up to
    case. *)
Definition same_city (clean_word : str) : option str :=
  find (fun city => Str.eqb (Str.lower clean_word) (Str.lower city)) cities.

(** The third loop, over the words of the query. *)
Fixpoint scan (words : list str) : option str :=
  match words with
  | [] => None
  | word :: words' =>
      let clean_word := clean word in
      if candidate clean_word
      then match same_city clean_word with
           | Some city => Some city
           | None =>
               if (3 <? List.length clean_word)%nat
               then Some clean_word
               else scan words'
           end
      else scan words'
  end.

Definition _extract_city (query : str) : option str :=
  let query_lower := Str.lower query in
  match known_city query_lower with
  | Some city => Some city
  | None =>
      match contextual patterns query with
      | Some potential_city => Some potential_city
      | None => scan (Str.split query)
      end
  end.

(** *** [_extract_duration] *)

Definition digit_value (c : ascii) : Z := Z.of_N (Str.code c) - 48.

(** The interpreter's limit on the number of digits of a decimal text that
    [int] converts ([sys.get_int_max_str_digits()], 4300 unless changed). *)
Definition int_max_str_digits : nat := 4300.

(** [str(n)] for a natural number. *)
Definition decimal (n : nat) : str :=
  L (NilZero.string_of_uint (Nat.to_uint n)).

(** [int(s)] on a text of decimal digits.  A text of more than
    [int_max_str_digits] digits raises [ValueError], and so does any text
    that is no number; Python also reads a sign, surrounding blanks and
    underscores, which group 1 of the patterns below never holds. *)
Definition int (s : str) : result Z :=
  if Str.truthy s && forallb Str.isdigit s
  then if (List.length s <=? int_max_str_digits)%nat
       then Ok (fold_left (fun acc c => 10 * acc + digit_value c) s 0)%Z
       else Raise (Error
                     (L "Exceeds the limit (4300 digits) for integer string conversion: value has "
                        ++ decimal (List.length s)
                        ++ L " digits; use sys.set_int_max_str_digits() to increase the limit"))
  else Raise (Error (L "invalid literal for int() with base 10: '"
                       ++ s ++ L "'")).

Definition spaces : regex := Plus Str.isspace.
Definition number : regex := Grp (Plus Str.isdigit).

(** [days?] *)
Definition days : regex := Cat (lit (L "day")) (Opt (chr "s")).

Definition day_patterns : list regex :=
  [ (* for\s+(\d+)\s+days? *)
    Cat (lit (L "for")) (Cat spaces (Cat number (Cat spaces days)));
    (* (\d+)\s+days? *)
    Cat number (Cat spaces days);
    (* (\d+)-day *)
    Cat number (lit (L "-day"));
    (* (\d+)\s+day\s+trip *)
    Cat number (Cat spaces (Cat (lit (L "day")) (Cat spaces (lit (L "trip"))))) ].

(** [1 <= days <= 365] *)
Definition reasonable (n : Z) : bool := ((1 <=? n) && (n <=? 365))%Z.

(** The loop over the numeric patterns. *)
Fixpoint numeric_days (ps : list regex) (query_lower : str)
  : result (option Z) :=
  match ps with
  | [] => Ok None
  | pattern :: ps' =>
      match search pattern query_lower with
      | Some m =>
          n <- int (group1 m) ;;
          if reasonable n then Ok (Some n) else numeric_days ps' query_lower
      | None => numeric_days ps' query_lower
      end
  end.

(** [(?:a|one|1)\s+<unit>] *)
Definition one_of (unit : str) : regex :=
  Cat (Alt (lit (L "a")) (Alt (lit (L "one")) (lit (L "1"))))
      (Cat spaces (lit unit)).

Definition month_case (query_lower : str) : option Z :=
  if Str.contains (L "month") query_lower
  then if found (search (one_of (L "month")) query_lower)
       then Some 30%Z else None
  else None.

(** The special cases after the numeric loop. *)
Definition special_cases (query_lower : str) : option Z :=
  if Str.contains (L "weekend") query_lower then Some 2%Z
  else if Str.contains (L "week") query_lower
          && negb (Str.contains (L "weekend") query_lower)
       then if found (search (one_of (L "week")) query_lower)
            then Some 7%Z
            else month_case query_lower
       else month_case query_lower.

Definition _extract_duration (query : str) : result (option Z) :=
  let query_lower := Str.lower query in
  numeric <- numeric_days day_patterns query_lower ;;
  match numeric with
  | Some n => Ok (Some n)
  | None => Ok (special_cases query_lower)
  end.

(** *** [parse] *)

Definition parse (query : str) : result ParseResult :=
  let city :=
    match _extract_city query with
    | Some city => if Str.truthy city then city else []
    | None => []
    end in
  duration <- _extract_duration query ;;
  let duration_days :=
    match duration with
    | Some d => if (d =? 0)%Z then None else Some d
    | None => None
    end in
  Ok (mkParseResult city duration_days).

(** *** Notions used to state the properties *)

(** [w] occurs in [s] as a whole word: [s] is [pre ++ w ++ post], the
    character before [w] (if any) is not a word character and neither is
    the character after it (if any). *)
Definition whole_word (w s : str) : Prop :=
  exists pre post,
    s = pre ++ w ++ post /\
    word_at (rev pre) = false /\ word_at post = false.

(** The query mentions the city as a whole word, whatever the case. *)
Definition mentions (query city : str) : Prop :=
  whole_word (Str.lower city) (Str.lower query).

(** The text begins with an upper-case letter. *)
Definition starts_upper (s : str) : bool :=
  match s with
  | [] => false
  | c :: _ => Str.isupper c
  end.

(** The query has no upper-case letter. *)
Definition no_upper (query : str) : Prop :=
  forall c, In c query -> Str.isupper c = false.

(** A cleaned word on which the scan stops: a candidate that is a listed
    city or has more than three characters. *)
Definition decisive (clean_word : str) : bool :=
  candidate clean_word
  && (match same_city clean_word with Some _ => true | None => false end
      || (3 <? List.length clean_word)%nat).

(** What the scan answers on a decisive word. *)
Definition answer (clean_word : str) : str :=
  match same_city clean_word with
  | Some city => city
  | None => clean_word
  end.

(** The scan read as "only the first candidate counts": the first cleaned
    word that is a candidate decides, and a candidate of three characters
    that is no listed city ends the scan without a city. *)
Definition scan_first_candidate_only (words : list str) : option str :=
  match find candidate (map clean words) with
  | None => None
  | Some clean_word =>
      match same_city clean_word with
      | Some city => Some city
      | None =>
          if (3 <? List.length clean_word)%nat then Some clean_word else None
      end
  end.

End Parser.


(* ================================================================== *)
(** ** The plan-trip endpoint *)
(* ================================================================== *)

Module Planner.

(** One call of [poi_service.get_activities_multi_provider]. *)
Record Call : Type := mkCall {
  call_city : str;
  call_duration_days : Z;
  call_limit : Z
}.

Section PlanTrip.

(** The POI service ([app.services.poi_service]) is an outside collaborator:
    it is a parameter here.  It returns raw activity records or raises.
    Building an [Activity] from one record validates it and may raise as
    well. *)
Variable RawActivity : Type.
Variable Activity : Type.
Variable get_activities_multi_provider :
  str -> Z -> Z -> result (list RawActivity).
Variable make_activity : RawActivity -> result Activity.

Record TripPlanResponse : Type := mkTripPlanResponse {
  response_city : str;
  response_duration_days : option Z;
  response_activities : list Activity
}.

(** The list comprehension that builds an [Activity] from each record. *)
Fixpoint activity_list (activities : list RawActivity)
  : result (list Activity) :=
  match activities with
  | [] => Ok []
  | activity :: rest =>
      a <- make_activity activity ;;
      l <- activity_list rest ;;
      Ok (a :: l)
  end.

(** [bool(duration_days)] *)
Definition known (duration_days : option Z) : bool :=
  match duration_days with
  | Some d => negb (d =? 0)%Z
  | None => false
  end.

(** [(duration_days * 2) if duration_days else 10] *)
Definition limit_of (duration_days : option Z) : Z :=
  match duration_days with
  | Some d => if known duration_days then (d * 2)%Z else 10%Z
  | None => 10%Z
  end.

(** [duration_days or 3] *)
Definition or_3 (duration_days : option Z) : Z :=
  match duration_days with
  | Some d => if known duration_days then d else 3%Z
  | None => 3%Z
  end.

Definition no_city_detail : str :=
  L "Could not extract city from query. Please specify a city name.".

(** The body of the [try] block: the calls made to the POI service and the
    outcome. *)
Definition body (query : str) : list Call * result TripPlanResponse :=
  match Parser.parse query with
  | Raise e => ([], Raise e)
  | Ok parsed =>
      let city := Parser.city parsed in
      let duration_days := Parser.duration_days parsed in
      if negb (Str.truthy city)
      then ([], Raise (HTTPException 400 no_city_detail))
      else
        let limit := limit_of duration_days in
        ([mkCall city (or_3 duration_days) limit],
         activities <-
           get_activities_multi_provider city (or_3 duration_days) limit ;;
         l <- activity_list activities ;;
         Ok (mkTripPlanResponse city duration_days l))
  end.

(** The two [except] clauses. *)
Definition handlers (r : result TripPlanResponse) : result TripPlanResponse :=
  match r with
  | Ok response => Ok response
  | Raise (HTTPException status_code detail) =>
      Raise (HTTPException status_code detail)
  | Raise (Error description) =>
      Raise (HTTPException 500 (L "Failed to plan trip: " ++ description))
  end.

Definition plan_trip (query : str) : list Call * result TripPlanResponse :=
  let (calls, r) := body query in (calls, handlers r).

End PlanTrip.

Arguments mkTripPlanResponse {Activity} _ _ _.
Arguments response_city {Activity} _.
Arguments response_duration_days {Activity} _.
Arguments response_activities {Activity} _.
Arguments activity_list {RawActivity Activity} _ _.
Arguments body {RawActivity Activity} _ _ _.
Arguments handlers {Activity} _.
Arguments plan_trip {RawActivity Activity} _ _ _.

End Planner.

(* ================================================================== *)
(** ** Notions used to state further properties *)
(* ================================================================== *)

Module Notions.

(** The text has no decimal digit. *)
Definition digit_free (s : str) : Prop :=
  forall c, In c s -> Str.isdigit c = false.

(** A non-empty run of white space. *)
Definition blanks (ws : str) : Prop :=
  ws <> [] /\ forallb Str.isspace ws = true.

(** The text is written in ASCII. *)
Definition ascii_text (s : str) : Prop :=
  forallb (fun c => (Str.code c <? 128)%N) s = true.

(** A character that the cleaning of a word keeps. *)
Definition plain (c : ascii) : bool := Str.isword c || Str.isspace c.

(** The text does not start with a character of the class. *)
Definition hd_not (p : ascii -> bool) (s : str) : bool :=
  match s with
  | [] => true
  | c :: _ => negb (p c)
  end.

(** The cue words of the first contextual pattern. *)
Definition cue_words : list str :=
  map L ["in"; "to"; "visiting"; "going to"; "traveling to"]%string.

(** The cue words of the second contextual pattern. *)
Definition suffix_cue_words : list str :=
  map L ["for"; "from"; "starting"]%string.

(** A word made of one upper-case letter and then one or more lower-case
    letters, as [[A-Z][a-z]+] wants it. *)
Definition capital_word (w : str) : bool :=
  match w with
  | c :: (_ :: _) as ls => Str.isupper c && forallb Str.islower ls
  | _ => false
  end.

End Notions.

(* ================================================================== *)
(** ** Facts about the string operations *)
(* ================================================================== *)

Module StrFacts.

Import Str.

Lemma eqb_eq (a b : str) : eqb a b = true <-> a = b.
Proof.
  unfold eqb. destruct (list_eq_dec ascii_dec a b); split; congruence.
Qed.

Lemma startswith_app (p s : str) : startswith p (p ++ s) = true.
Proof.
  induction p as [|c p IH]; simpl; [reflexivity|].
  now rewrite Ascii.eqb_refl.
Qed.

Lemma startswith_inv (p s : str) :
  startswith p s = true -> exists post, s = p ++ post.
Proof.
  revert s; induction p as [|c p IH]; intros s H; simpl in *.
  - now exists s.
  - destruct s as [|d s]; [discriminate|].
    apply andb_true_iff in H as [Hc Hs].
    apply Ascii.eqb_eq in Hc; subst d.
    destruct (IH _ Hs) as [post ->]. now exists post.
Qed.

Lemma contains_startswith (n h : str) :
  startswith n h = true -> contains n h = true.
Proof. intros H. destruct h; simpl; now rewrite H. Qed.

Lemma contains_app (n pre post : str) : contains n (pre ++ n ++ post) = true.
Proof.
  induction pre as [|c pre IH].
  - apply contains_startswith. apply (startswith_app n post).
  - simpl. rewrite IH. apply orb_true_r.
Qed.

Lemma contains_inv (n h : str) :
  contains n h = true -> exists pre post, h = pre ++ n ++ post.
Proof.
  induction h as [|c h IH]; simpl; intros H.
  - rewrite orb_false_r in H. apply startswith_inv in H as [post E].
    now exists [], post.
  - apply orb_true_iff in H as [H|H].
    + apply startswith_inv in H as [post E]. now exists [], post.
    + destruct (IH H) as (pre & post & ->). now exists (c :: pre), post.
Qed.

Lemma lower_app (a b : str) : lower (a ++ b) = lower a ++ lower b.
Proof. apply map_app. Qed.

(** The words of [split] are made of characters of the text. *)
Lemma split_aux_incl (s cur w : str) (c : ascii) :
  In w (split_aux cur s) -> In c w -> In c cur \/ In c s.
Proof.
  revert cur; induction s as [|d s IH]; intros cur Hw Hc; simpl in Hw.
  - destruct cur; [contradiction|].
    destruct Hw as [<-|[]]. left. now apply in_rev.
  - destruct (isspace d).
    + destruct cur.
      * destruct (IH _ Hw Hc) as [[]|H]. right; now right.
      * destruct Hw as [<-|Hw].
        -- left. now apply in_rev.
        -- destruct (IH _ Hw Hc) as [[]|H]. right; now right.
    + destruct (IH _ Hw Hc) as [[<-|H]|H]; auto.
      * right; now left.
      * right; now right.
Qed.

Lemma split_incl (s w : str) (c : ascii) :
  In w (split s) -> In c w -> In c s.
Proof.
  intros Hw Hc. destruct (split_aux_incl _ _ _ c Hw Hc) as [[]|H]; exact H.
Qed.

End StrFacts.

(* ================================================================== *)
(** ** Facts about the matcher *)
(* ================================================================== *)

Module ReFacts.

Import Re.

Lemma orelse_some {A : Type} (a b : option A) (x : A) :
  orelse a b = Some x -> a = Some x \/ (a = None /\ b = Some x).
Proof. destruct a; simpl; intros H; [left|right]; auto. Qed.

Lemma run_plus_sound (p : ascii -> bool) (k : cont) (g : option str) :
  forall rest b res,
    run_plus p k g b rest = Some res ->
    exists x rest',
      rest = x ++ rest' /\ x <> [] /\ forallb p x = true /\
      k g (rev x ++ b) rest' = Some res.
Proof.
  induction rest as [|c rest IH]; intros b res H; simpl in H; [discriminate|].
  destruct (p c) eqn:Hp; [|discriminate].
  apply orelse_some in H as [H|[_ H]].
  - destruct (IH _ _ H) as (x & rest' & -> & _ & Hall & Hk).
    exists (c :: x), rest'. repeat split.
    + discriminate.
    + simpl. now rewrite Hp.
    + simpl. now rewrite <- app_assoc.
  - exists [c], rest. repeat split.
    + discriminate.
    + simpl. now rewrite Hp.
    + exact H.
Qed.

Lemma firstn_rev_app (x b : str) :
  rev (firstn (List.length (rev x ++ b) - List.length b) (rev x ++ b)) = x.
Proof.
  rewrite length_app, Nat.add_sub.
  rewrite firstn_app, Nat.sub_diag, firstn_all. simpl.
  rewrite app_nil_r. apply rev_involutive.
Qed.

(** A successful run matched some text in the sense of [sem], and went on
    with the continuation right after it. *)
Lemma run_sound (r : regex) :
  forall k g b rest res,
    run r k g b rest = Some res ->
    exists x rest' g',
      rest = x ++ rest' /\ sem r b x rest' g g' /\
      k g' (rev x ++ b) rest' = Some res.
Proof.
  induction r as [|p|p|r1 IH1 r2 IH2|r1 IH1 r2 IH2|r1 IH1|r1 IH1|];
    intros k g b rest res H; simpl in H.
  - exists [], rest, g. repeat split; [constructor|exact H].
  - destruct rest as [|c rest]; [discriminate|].
    destruct (p c) eqn:Hp; [|discriminate].
    exists [c], rest, g. repeat split; [now constructor|exact H].
  - destruct (run_plus_sound _ _ _ _ _ _ H) as (x & rest' & -> & Hx & Hall & Hk).
    exists x, rest', g. repeat split; [now constructor|exact Hk].
  - destruct (IH1 _ _ _ _ _ H) as (x1 & rest1 & g1 & -> & S1 & H1).
    destruct (IH2 _ _ _ _ _ H1) as (x2 & rest2 & g2 & -> & S2 & H2).
    exists (x1 ++ x2), rest2, g2. repeat split.
    + now rewrite app_assoc.
    + econstructor; eassumption.
    + now rewrite rev_app_distr, <- app_assoc.
  - apply orelse_some in H as [H|[_ H]].
    + destruct (IH1 _ _ _ _ _ H) as (x & rest' & g' & -> & S & Hk).
      exists x, rest', g'. repeat split; [now apply sem_alt_l|exact Hk].
    + destruct (IH2 _ _ _ _ _ H) as (x & rest' & g' & -> & S & Hk).
      exists x, rest', g'. repeat split; [now apply sem_alt_r|exact Hk].
  - apply orelse_some in H as [H|[_ H]].
    + destruct (IH1 _ _ _ _ _ H) as (x & rest' & g' & -> & S & Hk).
      exists x, rest', g'. repeat split; [now apply sem_opt_some|exact Hk].
    + exists [], rest, g. repeat split; [apply sem_opt_none|exact H].
  - destruct (IH1 _ _ _ _ _ H) as (x & rest' & g' & -> & S & Hk).
    rewrite firstn_rev_app in Hk.
    exists x, rest', (Some x). repeat split; [econstructor; eassumption|exact Hk].
  - destruct (xorb (word_at b) (word_at rest)) eqn:Hx; [|discriminate].
    exists [], rest, g. repeat split; [now constructor|exact H].
Qed.

Lemma search_from_some (r : regex) :
  forall rest b g,
    search_from r b rest = Some g ->
    exists pre post,
      rest = pre ++ post /\ run r accept None (rev pre ++ b) post = Some g.
Proof.
  induction rest as [|c rest IH]; intros b g H; simpl in H.
  - destruct (run r accept None b []) eqn:E; [|discriminate].
    exists [], []. split; [reflexivity|]. simpl. congruence.
  - destruct (run r accept None b (c :: rest)) eqn:E.
    + exists [], (c :: rest). split; [reflexivity|]. simpl. congruence.
    + destruct (IH _ _ H) as (pre & post & -> & Hrun).
      exists (c :: pre), post. split; [reflexivity|].
      simpl. now rewrite <- app_assoc.
Qed.

Lemma search_from_none (r : regex) :
  forall rest b,
    search_from r b rest = None ->
    forall pre post,
      rest = pre ++ post -> run r accept None (rev pre ++ b) post = None.
Proof.
  induction rest as [|c rest IH]; intros b H pre post E; simpl in H.
  - destruct (run r accept None b []) eqn:Hr; [discriminate|].
    symmetry in E. apply app_eq_nil in E as [-> ->]. exact Hr.
  - destruct (run r accept None b (c :: rest)) eqn:Hr; [discriminate|].
    destruct pre as [|d pre]; simpl in E.
    + subst post. exact Hr.
    + injection E as <- ->. simpl. rewrite <- app_assoc.
      now apply IH.
Qed.

(** [re.search] returns a match only where the pattern matches. *)
Lemma search_sound (r : regex) (s : str) (g : option str) :
  search r s = Some g ->
  exists pre x post, s = pre ++ x ++ post /\ sem r (rev pre) x post None g.
Proof.
  intros H. destruct (search_from_some _ _ _ _ H) as (pre & post & -> & Hrun).
  rewrite app_nil_r in Hrun.
  destruct (run_sound _ _ _ _ _ _ Hrun) as (x & rest' & g' & -> & S & Hk).
  injection Hk as ->. now exists pre, x, rest'.
Qed.

(** [re.search] finds a match as soon as the pattern matches somewhere. *)
Lemma search_hit (r : regex) (pre post : str) (g : option str) :
  run r accept None (rev pre) post = Some g ->
  found (search r (pre ++ post)) = true.
Proof.
  intros H. unfold search.
  destruct (search_from r [] (pre ++ post)) eqn:E; [reflexivity|].
  pose proof (search_from_none _ _ _ E pre post eq_refl) as N.
  rewrite app_nil_r in N. congruence.
Qed.

Lemma run_lit_app (w : str) (k : cont) (g : option str) :
  forall b post, run (lit w) k g b (w ++ post) = k g (rev w ++ b) post.
Proof.
  induction w as [|c w IH]; intros b post; simpl; [reflexivity|].
  rewrite Ascii.eqb_refl, IH. now rewrite <- app_assoc.
Qed.

Lemma sem_lit (w : str) :
  forall b x a g g', sem (lit w) b x a g g' -> x = w /\ g' = g.
Proof.
  induction w as [|c w IH]; intros b x a g g' H; simpl in H.
  - inversion H; subst. auto.
  - inversion H as [| | |? ? x1 x2 ? ? ? g1 ? S1 S2| | | | | |]; subst.
    inversion S1 as [|? d ? ? ? Hd| | | | | | | |]; subst.
    apply Ascii.eqb_eq in Hd; subst d.
    destruct (IH _ _ _ _ _ S2) as [-> ->]. auto.
Qed.

Lemma sem_groupless (r : regex) (b x a : str) (g g' : option str) :
  sem r b x a g g' -> groupless r -> g' = g.
Proof.
  induction 1; simpl; intros G; try reflexivity; try tauto.
  destruct G as [G1 G2]. rewrite (IHsem2 G2). now apply IHsem1.
Qed.

Lemma groupless_lit (w : str) : groupless (lit w).
Proof. induction w; simpl; auto. Qed.

Lemma sem_cat_inv (r1 r2 : regex) (b x a : str) (g g2 : option str) :
  sem (Cat r1 r2) b x a g g2 ->
  exists x1 x2 g1,
    x = x1 ++ x2 /\ sem r1 b x1 (x2 ++ a) g g1 /\
    sem r2 (rev x1 ++ b) x2 a g1 g2.
Proof. intros H; inversion H; subst. eauto 7. Qed.

Lemma sem_bnd_inv (b x a : str) (g g' : option str) :
  sem Bnd b x a g g' ->
  x = [] /\ g' = g /\ xorb (word_at b) (word_at a) = true.
Proof. intros H; inversion H; subst. auto. Qed.

Lemma sem_grp_inv (r : regex) (b x a : str) (g g' : option str) :
  sem (Grp r) b x a g g' -> g' = Some x /\ exists g1, sem r b x a g g1.
Proof. intros H; inversion H; subst. eauto. Qed.

Lemma sem_plus_inv (p : ascii -> bool) (b x a : str) (g g' : option str) :
  sem (Plus p) b x a g g' -> x <> [] /\ forallb p x = true /\ g' = g.
Proof. intros H; inversion H; subst. auto. Qed.

Lemma sem_cls_inv (p : ascii -> bool) (b x a : str) (g g' : option str) :
  sem (Cls p) b x a g g' -> exists c, x = [c] /\ p c = true /\ g' = g.
Proof. intros H; inversion H; subst. eauto. Qed.

Lemma word_at_app (w a : str) : word_at w = true -> word_at (w ++ a) = true.
Proof. destruct w; simpl; [discriminate|auto]. Qed.

Lemma found_some (m : option (option str)) :
  found m = true -> exists g, m = Some g.
Proof. destruct m; simpl; [eauto|discriminate]. Qed.

Lemma find_first {A : Type} (f : A -> bool) (l1 l2 : list A) (x : A) :
  (forall y, In y l1 -> f y = false) -> f x = true ->
  find f (l1 ++ x :: l2) = Some x.
Proof.
  induction l1 as [|y l1 IH]; simpl; intros N Hx.
  - now rewrite Hx.
  - rewrite (N y (or_introl eq_refl)). apply IH; auto.
Qed.

Lemma find_all_false {A : Type} (f : A -> bool) (l : list A) :
  (forall y, In y l -> f y = false) -> find f l = None.
Proof.
  induction l as [|y l IH]; simpl; intros N; [reflexivity|].
  rewrite (N y (or_introl eq_refl)). apply IH; auto.
Qed.

End ReFacts.

(* ================================================================== *)
(** ** Properties of [SimpleTripParser] *)
(* ================================================================== *)

Module ParserFacts.

Import Re ReFacts StrFacts Parser.

(** **** The known-city loop *)

Lemma word_pattern_found (w s : str) :
  word_at w = true -> word_at (rev w) = true ->
  (found (search (word_pattern w) s) = true <-> whole_word w s).
Proof.
  intros Hw Hr. split.
  - intros F. apply found_some in F as [g F].
    apply search_sound in F as (pre & x & post & -> & S).
    unfold word_pattern in S.
    apply sem_cat_inv in S as (x1 & x2 & g1 & -> & S1 & S2).
    apply sem_bnd_inv in S1 as (-> & -> & B1).
    apply sem_cat_inv in S2 as (x3 & x4 & g3 & -> & S3 & S4).
    apply sem_lit in S3 as [-> ->].
    apply sem_bnd_inv in S4 as (-> & -> & B2).
    simpl in *. rewrite app_nil_r in *.
    rewrite (word_at_app _ post Hw) in B1.
    rewrite (word_at_app _ (rev pre) Hr) in B2.
    exists pre, post. repeat split.
    + now destruct (word_at (rev pre)).
    + now destruct (word_at post).
  - intros (pre & post & -> & Hpre & Hpost).
    apply (search_hit _ pre (w ++ post) None).
    unfold word_pattern. simpl.
    rewrite Hpre, (word_at_app _ post Hw). simpl.
    rewrite run_lit_app. simpl.
    rewrite (word_at_app _ (rev pre) Hr), Hpost. reflexivity.
Qed.

(** Every listed city starts and ends with a letter, and is not empty. *)
Lemma cities_shape (c : str) :
  In c cities ->
  word_at (Str.lower c) = true /\ word_at (rev (Str.lower c)) = true /\
  Str.truthy c = true.
Proof.
  assert (A : forallb (fun c => word_at (Str.lower c)
                               && word_at (rev (Str.lower c))
                               && Str.truthy c) cities = true)
    by (vm_compute; reflexivity).
  intros H. rewrite forallb_forall in A. specialize (A c H).
  apply andb_true_iff in A as [A T]. apply andb_true_iff in A as [A B]. auto.
Qed.

(** The test of the first loop says exactly that the query mentions the
    city. *)
Lemma known_city_test_mentions (query c : str) :
  In c cities ->
  (known_city_test (Str.lower query) c = true <-> mentions query c).
Proof.
  intros H. destruct (cities_shape c H) as (Hw & Hr & _).
  unfold known_city_test, mentions. rewrite andb_true_iff.
  rewrite (word_pattern_found _ _ Hw Hr). split; [tauto|].
  intros W. split; [|exact W].
  destruct W as (pre & post & -> & _). apply contains_app.
Qed.

Lemma known_city_first (query c : str) (before after : list str) :
  cities = before ++ c :: after ->
  mentions query c ->
  (forall c', In c' before -> ~ mentions query c') ->
  known_city (Str.lower query) = Some c.
Proof.
  intros E M N. unfold known_city.
  assert (I : forall c', In c' (before ++ c :: after) -> In c' cities)
    by (intros c'; now rewrite E).
  rewrite E. apply find_first.
  - intros c' Hc'.
    destruct (known_city_test (Str.lower query) c') eqn:T; [|reflexivity].
    exfalso. apply (N c' Hc'). apply known_city_test_mentions; [|exact T].
    apply I, in_or_app. now left.
  - apply known_city_test_mentions; [|exact M].
    apply I, in_or_app. right. now left.
Qed.

Lemma known_city_none (query : str) :
  (forall c, In c cities -> ~ mentions query c) ->
  known_city (Str.lower query) = None.
Proof.
  intros N. unfold known_city. apply find_all_false. intros c Hc.
  destruct (known_city_test (Str.lower query) c) eqn:T; [|reflexivity].
  exfalso. apply (N c Hc). now apply known_city_test_mentions.
Qed.

(** **** The numeric loop and the conversion of its number *)

Lemma int_digits (x : str) :
  x <> [] -> forallb Str.isdigit x = true ->
  (List.length x <= int_max_str_digits)%nat ->
  exists n, int x = Ok n.
Proof.
  intros Hx Hd Hl. unfold int. rewrite Hd.
  apply Nat.leb_le in Hl. rewrite Hl.
  destruct x; [congruence|]. simpl. eauto.
Qed.

Lemma sem_number (b x a : str) (g g' : option str) :
  sem number b x a g g' ->
  g' = Some x /\ x <> [] /\ forallb Str.isdigit x = true.
Proof.
  intros S. apply sem_grp_inv in S as (-> & g1 & S).
  apply sem_plus_inv in S as (Hx & Hd & _). auto.
Qed.

(** A number followed by a pattern without a group: group 1 is the number,
    a part of the matched text. *)
Lemma sem_number_then (r : regex) (b x a : str) (g g' : option str) :
  groupless r ->
  sem (Cat number r) b x a g g' ->
  exists ds,
    g' = Some ds /\ ds <> [] /\ forallb Str.isdigit ds = true /\
    (List.length ds <= List.length x)%nat.
Proof.
  intros G S. apply sem_cat_inv in S as (x1 & x2 & g1 & -> & S1 & S2).
  apply sem_number in S1 as (-> & Hx & Hd).
  rewrite (sem_groupless _ _ _ _ _ _ S2 G).
  exists x1. repeat split; auto. rewrite length_app. lia.
Qed.

Lemma groupless_days : groupless (Cat spaces days).
Proof. simpl. pose proof (groupless_lit (L "day")). tauto. Qed.

Lemma day_patterns_group (p : regex) (b x a : str) (g : option str) :
  In p day_patterns ->
  sem p b x a None g ->
  exists ds,
    g = Some ds /\ ds <> [] /\ forallb Str.isdigit ds = true /\
    (List.length ds <= List.length x)%nat.
Proof.
  intros [<-|[<-|[<-|[<-|[]]]]] S.
  - apply sem_cat_inv in S as (x1 & x2 & g1 & -> & S1 & S).
    apply sem_lit in S1 as [-> ->].
    apply sem_cat_inv in S as (x3 & x4 & g3 & -> & S3 & S).
    apply sem_plus_inv in S3 as (_ & _ & ->).
    destruct (sem_number_then _ _ _ _ _ _ groupless_days S)
      as (ds & -> & N & D & Len).
    exists ds. repeat split; auto. rewrite !length_app. lia.
  - apply (sem_number_then _ _ _ _ _ _ groupless_days S).
  - apply (sem_number_then _ _ _ _ _ _ (groupless_lit _) S).
  - refine (sem_number_then _ _ _ _ _ _ _ S).
    simpl. pose proof (groupless_lit (L "day")).
    pose proof (groupless_lit (L "trip")). tauto.
Qed.

(** What a numeric-day pattern captures is a non-empty run of digits, no
    longer than the query. *)
Lemma day_patterns_capture (p : regex) (query_lower : str) (m : option str) :
  In p day_patterns ->
  search p query_lower = Some m ->
  group1 m <> [] /\ forallb Str.isdigit (group1 m) = true /\
  (List.length (group1 m) <= List.length query_lower)%nat.
Proof.
  intros I H. apply search_sound in H as (pre & x & post & -> & S).
  destruct (day_patterns_group _ _ _ _ _ I S) as (ds & -> & Hx & Hd & Len).
  simpl. repeat split; auto. rewrite !length_app. lia.
Qed.

(** A number that the loop returns is a reasonable one. *)
Lemma numeric_days_range (query_lower : str) :
  forall ps n,
    numeric_days ps query_lower = Ok (Some n) -> reasonable n = true.
Proof.
  induction ps as [|p ps IH]; intros n H; simpl in H; [discriminate|].
  destruct (search p query_lower) as [m|]; [|now apply IH].
  destruct (int (group1 m)) as [k|e]; simpl in H; [|discriminate].
  destruct (reasonable k) eqn:R; [|now apply IH].
  now injection H as <-.
Qed.

(** On a query of at most [int_max_str_digits] characters the loop ends
    without an exception. *)
Lemma numeric_days_short (query_lower : str) :
  (List.length query_lower <= int_max_str_digits)%nat ->
  forall ps,
    incl ps day_patterns ->
    exists r, numeric_days ps query_lower = Ok r.
Proof.
  intros Len. induction ps as [|p ps IH]; intros I; simpl.
  - now exists None.
  - assert (Ip : In p day_patterns) by (apply I; now left).
    assert (Is : incl ps day_patterns)
      by (intros y Hy; apply I; now right).
    destruct (search p query_lower) as [m|] eqn:Sp; [|now apply IH].
    destruct (day_patterns_capture _ _ _ Ip Sp) as (N & D & L').
    destruct (int_digits _ N D) as [n ->]; [lia|]. simpl.
    destruct (reasonable n); [|now apply IH]. eauto.
Qed.

Lemma special_cases_values (query_lower : str) (n : Z) :
  special_cases query_lower = Some n -> n = 2%Z \/ n = 7%Z \/ n = 30%Z.
Proof.
  unfold special_cases, month_case.
  repeat match goal with
         | |- context [if ?c then _ else _] => destruct c
         end; intros [= <-]; auto.
Qed.

(** A duration that is found lies between 1 and 365. *)
Lemma extract_duration_range (query : str) (d : option Z) :
  _extract_duration query = Ok d ->
  forall n, d = Some n -> (1 <= n <= 365)%Z.
Proof.
  unfold _extract_duration. intros H n ->.
  destruct (numeric_days day_patterns (Str.lower query)) as [[k|]|e] eqn:N;
    simpl in H; try discriminate.
  - injection H as ->. apply numeric_days_range in N.
    unfold reasonable in N. lia.
  - injection H as H. apply special_cases_values in H. lia.
Qed.

Lemma lower_length (s : str) : List.length (Str.lower s) = List.length s.
Proof. apply length_map. Qed.

Lemma extract_duration_short (query : str) :
  (List.length query <= int_max_str_digits)%nat ->
  exists d, _extract_duration query = Ok d.
Proof.
  intros Len. unfold _extract_duration.
  destruct (numeric_days_short (Str.lower query)) with (ps := day_patterns)
    as [r ->]; [now rewrite lower_length|apply incl_refl|].
  simpl. destruct r; eauto.
Qed.

(** [parse] in terms of its two extractions. *)
Lemma parse_eq (query : str) (d : option Z) :
  _extract_duration query = Ok d ->
  (forall n, d = Some n -> (1 <= n <= 365)%Z) ->
  parse query =
  Ok (mkParseResult
        (match _extract_city query with
         | Some c => if Str.truthy c then c else []
         | None => []
         end) d).
Proof.
  intros E R. unfold parse. rewrite E. simpl. f_equal. f_equal.
  destruct d as [n|]; [|reflexivity].
  specialize (R n eq_refl). destruct (Z.eqb_spec n 0); [lia|reflexivity].
Qed.

Lemma parse_ok (query : str) (d : option Z) :
  _extract_duration query = Ok d ->
  parse query =
  Ok (mkParseResult
        (match _extract_city query with
         | Some c => if Str.truthy c then c else []
         | None => []
         end) d).
Proof.
  intros E. exact (parse_eq _ _ E (extract_duration_range _ _ E)).
Qed.

(** When [parse] returns, the duration was extracted without an exception
    and the record holds the two extractions. *)
Lemma parse_inv (query : str) (r : ParseResult) :
  parse query = Ok r ->
  exists d,
    _extract_duration query = Ok d /\
    (forall n, d = Some n -> (1 <= n <= 365)%Z) /\
    r = mkParseResult
          (match _extract_city query with
           | Some c => if Str.truthy c then c else []
           | None => []
           end) d.
Proof.
  intros P. destruct (_extract_duration query) as [d|e] eqn:E.
  - exists d. split; [reflexivity|].
    split; [exact (extract_duration_range _ _ E)|].
    rewrite (parse_ok _ _ E) in P. now injection P as <-.
  - unfold parse in P. rewrite E in P. discriminate.
Qed.

Lemma parse_raise (query : str) (e : exn) :
  _extract_duration query = Raise e -> parse query = Raise e.
Proof. intros E. unfold parse. now rewrite E. Qed.

(** **** The contextual patterns and the scan need an upper-case letter *)

Lemma capitalized_upper (b x a : str) (g g' : option str) :
  sem capitalized b x a g g' ->
  exists c, In c x /\ Str.isupper c = true.
Proof.
  intros S. apply sem_cat_inv in S as (x1 & x2 & g1 & -> & S1 & _).
  apply sem_cls_inv in S1 as (c & -> & Hc & _).
  exists c. split; [now left|exact Hc].
Qed.

Lemma phrase_upper (b x a : str) (g g' : option str) :
  sem phrase b x a g g' ->
  exists c, In c x /\ Str.isupper c = true.
Proof.
  intros S. apply sem_cat_inv in S as (x1 & x2 & g1 & -> & S1 & _).
  apply capitalized_upper in S1 as (c & I & U).
  exists c. split; [apply in_or_app; now left|exact U].
Qed.

Lemma patterns_upper (p : regex) (b x a : str) (g g' : option str) :
  In p patterns ->
  sem p b x a g g' ->
  exists c, In c x /\ Str.isupper c = true.
Proof.
  intros [<-|[<-|[]]] S.
  - apply sem_cat_inv in S as (x1 & x2 & g1 & -> & _ & S).
    apply sem_cat_inv in S as (x3 & x4 & g3 & -> & _ & S).
    apply sem_cat_inv in S as (x5 & x6 & g5 & -> & _ & S).
    apply sem_grp_inv in S as (_ & g6 & S).
    apply phrase_upper in S as (c & I & U).
    exists c. split; [|exact U]. rewrite !in_app_iff. tauto.
  - apply sem_cat_inv in S as (x1 & x2 & g1 & -> & _ & S).
    apply sem_cat_inv in S as (x3 & x4 & g3 & -> & S & _).
    apply sem_grp_inv in S as (_ & g6 & S).
    apply phrase_upper in S as (c & I & U).
    exists c. split; [|exact U]. rewrite !in_app_iff. tauto.
Qed.

Lemma contextual_no_upper (query : str) :
  no_upper query ->
  forall ps, incl ps patterns -> contextual ps query = None.
Proof.
  intros N. induction ps as [|p ps IH]; intros I; simpl; [reflexivity|].
  assert (Is : incl ps patterns) by (intros y Hy; apply I; now right).
  destruct (search p query) as [m|] eqn:Sp; [exfalso|now apply IH].
  apply search_sound in Sp as (pre & x & post & -> & S).
  apply patterns_upper in S as (c & Hc & U); [|apply I; now left].
  rewrite N in U; [discriminate|]. rewrite !in_app_iff. tauto.
Qed.

Lemma scan_no_upper (words : list str) :
  (forall w c, In w words -> In c w -> Str.isupper c = false) ->
  scan words = None.
Proof.
  induction words as [|w words IH]; intros N; simpl; [reflexivity|].
  assert (C : candidate (clean w) = false).
  { unfold candidate. destruct (clean w) as [|c r] eqn:E; [reflexivity|].
    assert (I : In c (clean w)) by (rewrite E; now left).
    unfold clean in I. apply filter_In in I as [I _].
    now rewrite (N w c (or_introl eq_refl) I). }
  rewrite C. apply IH. intros w' c Hw. apply N. now right.
Qed.

Lemma extract_city_no_upper (query : str) :
  no_upper query ->
  (forall c, In c cities -> ~ mentions query c) ->
  _extract_city query = None.
Proof.
  intros N M. unfold _extract_city.
  rewrite (known_city_none _ M).
  rewrite (contextual_no_upper _ N patterns (incl_refl _)).
  apply scan_no_upper. intros w c Hw Hc. apply N.
  exact (split_incl _ _ _ Hw Hc).
Qed.

(** Whatever the contextual patterns and the scan return begins with an
    upper-case letter (the reason behind C10). *)
Lemma phrase_starts_upper (b x a : str) (g g' : option str) :
  sem phrase b x a g g' -> starts_upper x = true.
Proof.
  intros S. apply sem_cat_inv in S as (x1 & x2 & g1 & -> & S1 & _).
  apply sem_cat_inv in S1 as (x3 & x4 & g3 & -> & S3 & _).
  apply sem_cls_inv in S3 as (c & -> & Hc & _). exact Hc.
Qed.

Lemma patterns_group_upper (p : regex) (b x a : str) (g : option str) :
  In p patterns ->
  sem p b x a None g ->
  exists y, g = Some y /\ starts_upper y = true.
Proof.
  intros [<-|[<-|[]]] S.
  - apply sem_cat_inv in S as (x1 & x2 & g1 & -> & _ & S).
    apply sem_cat_inv in S as (x3 & x4 & g3 & -> & _ & S).
    apply sem_cat_inv in S as (x5 & x6 & g5 & -> & _ & S).
    apply sem_grp_inv in S as (-> & g6 & S).
    exists x6. split; [reflexivity|]. now apply phrase_starts_upper in S.
  - apply sem_cat_inv in S as (x1 & x2 & g1 & -> & _ & S).
    apply sem_cat_inv in S as (x3 & x4 & g3 & -> & S & T).
    apply sem_grp_inv in S as (-> & g6 & S).
    assert (G : groupless (Cat (Plus Str.isspace)
                  (Alt (lit (L "for"))
                       (Alt (lit (L "from")) (lit (L "starting"))))))
      by (simpl; pose proof (groupless_lit (L "for"));
          pose proof (groupless_lit (L "from"));
          pose proof (groupless_lit (L "starting")); tauto).
    rewrite (sem_groupless _ _ _ _ _ _ T G).
    exists x3. split; [reflexivity|]. now apply phrase_starts_upper in S.
Qed.

Lemma contextual_starts_upper (query c : str) :
  forall ps,
    incl ps patterns -> contextual ps query = Some c ->
    starts_upper c = true.
Proof.
  induction ps as [|p ps IH]; intros I H; simpl in H; [discriminate|].
  assert (Is : incl ps patterns) by (intros y Hy; apply I; now right).
  destruct (search p query) as [m|] eqn:Sp; [|now apply IH].
  destruct (negb (stoplisted (group1 m))); [|now apply IH].
  injection H as <-.
  apply search_sound in Sp as (pre & x & post & _ & S).
  apply patterns_group_upper in S as (y & -> & U); [exact U|].
  apply I. now left.
Qed.

Lemma scan_starts_upper (c : str) :
  forall words, scan words = Some c -> starts_upper c = true.
Proof.
  assert (A : forallb starts_upper cities = true) by (vm_compute; reflexivity).
  rewrite forallb_forall in A.
  induction words as [|w words IH]; intros H; simpl in H; [discriminate|].
  destruct (candidate (clean w)) eqn:C; [|now apply IH].
  destruct (same_city (clean w)) as [city|] eqn:E.
  - injection H as <-. apply find_some in E as [I _]. now apply A.
  - destruct (3 <? List.length (clean w))%nat; [|now apply IH].
    injection H as <-. unfold candidate in C.
    destruct (clean w); [discriminate|].
    apply andb_true_iff in C as [C _]. exact C.
Qed.

Lemma rules_2_3_start_upper (query c : str) :
  known_city (Str.lower query) = None ->
  _extract_city query = Some c ->
  starts_upper c = true.
Proof.
  unfold _extract_city. intros -> H.
  destruct (contextual patterns query) as [c'|] eqn:E.
  - injection H as <-.
    exact (contextual_starts_upper _ _ _ (incl_refl _) E).
  - exact (scan_starts_upper _ _ H).
Qed.

(** What the test of the first loop computes settles who is mentioned. *)
Lemma not_mentioned (query : str) :
  known_city (Str.lower query) = None ->
  forall c, In c cities -> ~ mentions query c.
Proof.
  intros K c I M. unfold known_city in K.
  pose proof (find_none _ _ K c I) as F.
  apply (known_city_test_mentions query c I) in M. congruence.
Qed.

(** **** The scan stops at the first decisive word *)

Lemma scan_decisive (words : list str) :
  scan words =
  match find decisive (map clean words) with
  | Some clean_word => Some (answer clean_word)
  | None => None
  end.
Proof.
  induction words as [|w words IH]; simpl; [reflexivity|].
  assert (D : decisive (clean w) =
              candidate (clean w)
              && (match same_city (clean w) with
                  | Some _ => true
                  | None => false
                  end || (3 <? List.length (clean w))%nat)) by reflexivity.
  assert (A : answer (clean w) =
              match same_city (clean w) with
              | Some city => city
              | None => clean w
              end) by reflexivity.
  rewrite D.
  destruct (candidate (clean w)); simpl; [|exact IH].
  destruct (same_city (clean w)); simpl; [now rewrite A|].
  destruct (3 <? List.length (clean w))%nat; [now rewrite A|exact IH].
Qed.

(** **** The properties of [parse] *)

(** When [parse] returns, its city is what [_extract_city] found, and it
    does return on a query of at most [int_max_str_digits] characters. *)
Lemma parse_city_of (query : str) (r : ParseResult) :
  parse query = Ok r ->
  city r = match _extract_city query with
           | Some c => if Str.truthy c then c else []
           | None => []
           end.
Proof.
  intros P. apply parse_inv in P as (d & _ & _ & ->). reflexivity.
Qed.

Lemma parse_short (query : str) :
  (List.length query <= int_max_str_digits)%nat ->
  exists d,
    parse query =
    Ok (mkParseResult
          (match _extract_city query with
           | Some c => if Str.truthy c then c else []
           | None => []
           end) d).
Proof.
  intros Len. destruct (extract_duration_short _ Len) as [d D].
  exists d. exact (parse_ok _ _ D).
Qed.

(** C1. A query that mentions a listed city as a whole word, in any case,
    gets the canonical spelling of the first city of the list that it
    mentions: if [c] is mentioned and no city listed before [c] is, the city
    extraction returns [c], whatever else the query holds; the record that
    [parse] returns has the city [c], and [parse] does return it when the
    query has at most [int_max_str_digits] characters. *)
Theorem parse_known_city (query c : str) (before after : list str) :
  cities = before ++ c :: after ->
  mentions query c ->
  (forall c', In c' before -> ~ mentions query c') ->
  _extract_city query = Some c /\
  (forall r, parse query = Ok r -> city r = c) /\
  ((List.length query <= int_max_str_digits)%nat ->
   exists d, parse query = Ok (mkParseResult c d)).
Proof.
  intros E M N.
  assert (K : _extract_city query = Some c)
    by (unfold _extract_city; now rewrite (known_city_first _ _ _ _ E M N)).
  assert (I : In c cities) by (rewrite E; apply in_or_app; right; now left).
  destruct (cities_shape c I) as (_ & _ & T).
  split; [exact K|]. split.
  - intros r P. rewrite (parse_city_of _ _ P), K. now rewrite T.
  - intros Len. destruct (parse_short _ Len) as [d P].
    exists d. rewrite P, K. now rewrite T.
Qed.

Lemma parse_known_city_witness :
  exists d,
    parse (L "from Paris to SYDNEY, then back") =
    Ok (mkParseResult (L "Sydney") d).
Proof.
  destruct (parse_known_city (L "from Paris to SYDNEY, then back")
              (L "Sydney") [L "Melbourne"] (tl (tl cities)))
    as (_ & _ & H).
  - reflexivity.
  - exists (L "from paris to "), (L ", then back"). vm_compute. auto.
  - intros c' [<-|[]] M.
    apply known_city_test_mentions in M; [|now left].
    vm_compute in M. discriminate.
  - apply H. apply Nat.leb_le. vm_compute. reflexivity.
Defined.

(** The special case of C1 for a query that mentions exactly one listed
    city. *)
Lemma parse_only_known_city (query c : str) :
  In c cities ->
  mentions query c ->
  (forall c', In c' cities -> mentions query c' -> c' = c) ->
  _extract_city query = Some c /\
  (forall r, parse query = Ok r -> city r = c).
Proof.
  intros I M U.
  assert (K : known_city (Str.lower query) = Some c).
  { unfold known_city.
    destruct (find (known_city_test (Str.lower query)) cities) as [c'|] eqn:F.
    - apply find_some in F as [I' T].
      apply (known_city_test_mentions query c' I') in T.
      now rewrite (U c' I' T).
    - pose proof (find_none _ _ F c I) as T.
      apply (known_city_test_mentions query c I) in M. congruence. }
  assert (E : _extract_city query = Some c)
    by (unfold _extract_city; now rewrite K).
  split; [exact E|]. intros r P.
  rewrite (parse_city_of _ _ P), E.
  now destruct (cities_shape c I) as (_ & _ & ->).
Qed.

(** A number outside [1, 365] that was converted makes the loop go on with
    the remaining patterns, and a duration that [parse] returns is absent or
    lies in [1, 365]. *)
Lemma numeric_days_skips (query_lower : str) (p : regex) (ps : list regex)
      (m : option str) (n : Z) :
  search p query_lower = Some m ->
  int (group1 m) = Ok n ->
  ~ (1 <= n <= 365)%Z ->
  numeric_days (p :: ps) query_lower = numeric_days ps query_lower.
Proof.
  intros S I R. simpl. rewrite S, I. simpl.
  destruct (reasonable n) eqn:E; [|reflexivity].
  exfalso. apply R. unfold reasonable in E. lia.
Qed.

Lemma parse_duration_in_range (query : str) (r : ParseResult) (n : Z) :
  parse query = Ok r -> duration_days r = Some n -> (1 <= n <= 365)%Z.
Proof.
  intros P D. apply parse_inv in P as (d & _ & R & ->). now apply R.
Qed.



(** X16. On every query of at most [int_max_str_digits] characters [parse]
    returns a record and raises nothing: no number in such a query is too
    long for [int].  The record has the empty city when no city is found and
    no duration when none is found. *)
Theorem parse_short_query (query : str) :
  (List.length query <= int_max_str_digits)%nat ->
  exists r,
    parse query = Ok r /\
    (_extract_city query = None -> city r = []) /\
    (_extract_duration query = Ok None -> duration_days r = None).
Proof.
  intros Len. destruct (extract_duration_short _ Len) as [d D].
  eexists. split; [exact (parse_ok _ _ D)|]. simpl. split.
  - now intros ->.
  - intros E. congruence.
Qed.

Lemma parse_short_query_witness :
  parse (L "somewhere warm, some day") = Ok (mkParseResult [] None).
Proof.
  destruct (parse_short_query (L "somewhere warm, some day"))
    as ([c d] & P & C & D).
  - apply Nat.leb_le. vm_compute. reflexivity.
  - rewrite P. simpl in C, D. rewrite C, D; vm_compute; reflexivity.
Defined.

(** C10. A query without an upper-case letter that mentions no listed city
    yields no city: the city extraction returns nothing, the record that
    [parse] returns has the empty city, and [parse] does return it when the
    query has at most [int_max_str_digits] characters. *)
Theorem parse_lowercase_unknown (query : str) :
  no_upper query ->
  (forall c, In c cities -> ~ mentions query c) ->
  _extract_city query = None /\
  (forall r, parse query = Ok r -> city r = []) /\
  ((List.length query <= int_max_str_digits)%nat ->
   exists d, parse query = Ok (mkParseResult [] d)).
Proof.
  intros N M. pose proof (extract_city_no_upper _ N M) as E.
  split; [exact E|]. split.
  - intros r P. now rewrite (parse_city_of _ _ P), E.
  - intros Len. destruct (parse_short _ Len) as [d P].
    exists d. now rewrite P, E.
Qed.

Lemma parse_lowercase_unknown_witness :
  exists d, parse (L "going to zanzibar for 3 days") = Ok (mkParseResult [] d).
Proof.
  destruct (parse_lowercase_unknown (L "going to zanzibar for 3 days"))
    as (_ & _ & H).
  - intros c I.
    assert (A : forallb (fun c => negb (Str.isupper c))
                  (L "going to zanzibar for 3 days") = true)
      by (vm_compute; reflexivity).
    rewrite forallb_forall in A. specialize (A c I).
    now destruct (Str.isupper c).
  - apply not_mentioned. vm_compute. reflexivity.
  - apply H. apply Nat.leb_le. vm_compute. reflexivity.
Defined.

(** C2, as the claim words it, fails: here pattern (a) matches "in May", the
    stoplist rejects "May", and the answer is the match of pattern (b), not
    the answer of the scan. *)
Lemma rejected_a_skips_b_fails :
  ~ (forall query m,
        known_city (Str.lower query) = None ->
        search pattern_a query = Some m ->
        stoplisted (group1 m) = true ->
        _extract_city query = scan (Str.split query)).
Proof.
  intros H.
  specialize (H (L "Hello in May, Zanzibar for fun") (Some (L "May"))).
  vm_compute in H.
  specialize (H eq_refl eq_refl eq_refl). discriminate.
Qed.

(** C2, amended. When no listed city is mentioned and pattern (a) matches
    with a stoplisted candidate, pattern (b) is tried next: its candidate is
    returned unless it is stoplisted too, and the scan of the words is reached
    only when pattern (b) does not match or is rejected as well. *)
Theorem rejected_a_tries_b (query : str) (m : option str) :
  known_city (Str.lower query) = None ->
  search pattern_a query = Some m ->
  stoplisted (group1 m) = true ->
  _extract_city query =
  match search pattern_b query with
  | Some m' =>
      if stoplisted (group1 m')
      then scan (Str.split query)
      else Some (group1 m')
  | None => scan (Str.split query)
  end.
Proof.
  intros K A R. unfold _extract_city. rewrite K. simpl. rewrite A, R. simpl.
  destruct (search pattern_b query) as [m'|]; [|reflexivity].
  destruct (stoplisted (group1 m')); reflexivity.
Qed.

Lemma rejected_a_tries_b_witness :
  _extract_city (L "Hello in May, Zanzibar for fun") = Some (L "Zanzibar").
Proof.
  rewrite (rejected_a_tries_b (L "Hello in May, Zanzibar for fun")
             (Some (L "May"))).
  - vm_compute. reflexivity.
  - vm_compute. reflexivity.
  - vm_compute. reflexivity.
  - vm_compute. reflexivity.
Defined.

(** C3, as the claim words it, fails: in "The Zanzibar" the first candidate,
    "The", has three letters and is no listed city, and yet the scan goes on
    and returns "Zanzibar". *)
Lemma scan_first_candidate_only_fails :
  ~ (forall query,
        known_city (Str.lower query) = None ->
        contextual patterns query = None ->
        _extract_city query = scan_first_candidate_only (Str.split query)).
Proof.
  intros H. specialize (H (L "The Zanzibar")).
  vm_compute in H. specialize (H eq_refl eq_refl). discriminate.
Qed.

(** C3, amended. When the first two rules give no city, the scan goes through
    the words in order and skips every word whose cleaned form is no
    candidate (it does not start with an upper-case letter, or has at most
    two characters) or is a candidate of three characters that is no listed
    city.  The first word that is not skipped decides: the canonical
    spelling if it equals a listed city up to case, the cleaned word itself
    otherwise.  If every word is skipped there is no city. *)
Theorem scan_first_decisive (query : str) :
  known_city (Str.lower query) = None ->
  contextual patterns query = None ->
  _extract_city query =
  match find decisive (map clean (Str.split query)) with
  | Some clean_word => Some (answer clean_word)
  | None => None
  end.
Proof.
  intros K C. unfold _extract_city. rewrite K, C. apply scan_decisive.
Qed.

Lemma scan_first_decisive_witness :
  _extract_city (L "The Zanzibar") = Some (L "Zanzibar").
Proof.
  rewrite (scan_first_decisive (L "The Zanzibar")).
  - vm_compute. reflexivity.
  - vm_compute. reflexivity.
  - vm_compute. reflexivity.
Defined.

(** **** The documented examples *)

Example parse_3_days_in_Melbourne :
  parse (L "3 days in Melbourne")
  = Ok (mkParseResult (L "Melbourne") (Some 3%Z)).
Proof. vm_compute. reflexivity. Qed.

Example parse_going_to_Sydney :
  parse (L "going to Sydney for 5 days")
  = Ok (mkParseResult (L "Sydney") (Some 5%Z)).
Proof. vm_compute. reflexivity. Qed.

Example parse_weekend_trip_to_Tokyo :
  parse (L "weekend trip to Tokyo")
  = Ok (mkParseResult (L "Tokyo") (Some 2%Z)).
Proof. vm_compute. reflexivity. Qed.

Example parse_a_week_in_Paris :
  parse (L "a week in Paris") = Ok (mkParseResult (L "Paris") (Some 7%Z)).
Proof. vm_compute. reflexivity. Qed.

Example parse_empty : parse [] = Ok (mkParseResult [] None).
Proof. vm_compute. reflexivity. Qed.

Example parse_400_days :
  parse (L "400 days in Perth") = Ok (mkParseResult (L "Perth") None).
Proof. vm_compute. reflexivity. Qed.

Example parse_word_boundary :
  parse (L "the Roman road") = Ok (mkParseResult (L "Roman") None).
Proof. vm_compute. reflexivity. Qed.

End ParserFacts.

(* ================================================================== *)
(** ** Properties of [plan_trip] *)
(* ================================================================== *)

Module PlannerFacts.

Import Parser ParserFacts Planner.

Section Facts.

Variable RawActivity : Type.
Variable Activity : Type.
Variable get_activities_multi_provider :
  str -> Z -> Z -> result (list RawActivity).
Variable make_activity : RawActivity -> result Activity.

Lemma truthy_nonempty (s : str) : s <> [] -> Str.truthy s = true.
Proof. destruct s; [congruence|reflexivity]. Qed.

Lemma parse_duration_range (query : str) (r : ParseResult) (n : Z) :
  parse query = Ok r -> duration_days r = Some n -> (1 <= n <= 365)%Z.
Proof.
  intros P D. exact (parse_duration_in_range _ _ _ P D).
Qed.

Lemma or_3_parsed (query : str) (r : ParseResult) :
  parse query = Ok r ->
  or_3 (duration_days r) =
  match duration_days r with Some d => d | None => 3%Z end.
Proof.
  intros P. destruct (duration_days r) as [n|] eqn:D; [|reflexivity].
  pose proof (parse_duration_range _ _ _ P D) as R.
  simpl. destruct (Z.eqb_spec n 0); [lia|reflexivity].
Qed.

Lemma limit_of_parsed (query : str) (r : ParseResult) :
  parse query = Ok r ->
  limit_of (duration_days r) =
  match duration_days r with Some d => (d * 2)%Z | None => 10%Z end.
Proof.
  intros P. destruct (duration_days r) as [n|] eqn:D; [|reflexivity].
  pose proof (parse_duration_range _ _ _ P D) as R.
  simpl. destruct (Z.eqb_spec n 0); [lia|reflexivity].
Qed.

(** The request with a city: one call to the POI service, and the outcome of
    the [try] block made from its answer. *)
Lemma body_with_city (query : str) (r : ParseResult) :
  parse query = Ok r ->
  city r <> [] ->
  body get_activities_multi_provider make_activity query =
  ([mkCall (city r) (or_3 (duration_days r)) (limit_of (duration_days r))],
   activities <-
     get_activities_multi_provider (city r) (or_3 (duration_days r))
       (limit_of (duration_days r)) ;;
   l <- activity_list make_activity activities ;;
   Ok (mkTripPlanResponse (city r) (duration_days r) l)).
Proof.
  intros P C. unfold body. rewrite P, (truthy_nonempty _ C). reflexivity.
Qed.

(** C6. For a parsed query with a city, [plan_trip] calls the POI service
    once, with the city, with the parsed duration or 3 when there is none,
    and with a limit of twice the parsed duration or 10 when there is none:
    the outcome of [plan_trip] is made from what the service answers to
    exactly these arguments, and the call recorded is this one. *)
Theorem plan_trip_lookup_request (query : str) (r : ParseResult) :
  parse query = Ok r ->
  city r <> [] ->
  plan_trip get_activities_multi_provider make_activity query =
  ([mkCall (city r)
           (match duration_days r with Some d => d | None => 3%Z end)
           (match duration_days r with Some d => (d * 2)%Z | None => 10%Z end)],
   handlers
     (activities <-
        get_activities_multi_provider
          (city r)
          (match duration_days r with Some d => d | None => 3%Z end)
          (match duration_days r with Some d => (d * 2)%Z | None => 10%Z end) ;;
      l <- activity_list make_activity activities ;;
      Ok (mkTripPlanResponse (city r) (duration_days r) l))).
Proof.
  intros P C. unfold plan_trip. rewrite (body_with_city _ _ P C).
  now rewrite (or_3_parsed _ _ P), (limit_of_parsed _ _ P).
Qed.

(** C7, amended. When the parser returns, a request whose parsed city is
    empty is rejected with the client error 400 and its fixed detail, with
    no call to the POI service.  When there is a city and the lookup raises,
    an exception that is no [HTTPException] is reported as the server error
    500 whose detail carries its description, and an [HTTPException] is
    passed on as it is.  The client error has status 400, the generic server
    error 500. *)
Theorem plan_trip_failures (query : str) (r : ParseResult) :
  parse query = Ok r ->
  (city r = [] ->
   plan_trip get_activities_multi_provider make_activity query =
   ([], Raise (HTTPException 400 no_city_detail))) /\
  (city r <> [] ->
   forall e,
     get_activities_multi_provider (city r) (or_3 (duration_days r))
       (limit_of (duration_days r)) = Raise e ->
     snd (plan_trip get_activities_multi_provider make_activity query) =
     Raise (match e with
            | HTTPException status_code detail =>
                HTTPException status_code detail
            | Error description =>
                HTTPException 500 (L "Failed to plan trip: " ++ description)
            end)) /\
  (400 <> 500)%Z.
Proof.
  intros P. repeat split.
  - intros C. unfold plan_trip, body. rewrite P, C. reflexivity.
  - intros C e G. unfold plan_trip.
    rewrite (body_with_city _ _ P C). simpl. rewrite G. simpl.
    destruct e; reflexivity.
  - lia.
Qed.

(** C9. Whenever [plan_trip] answers, the [duration_days] of the response is
    the parsed duration itself and the city is the parsed city; when the
    parser found no duration the response carries none, although the POI
    service was called with 3 days and a limit of 10. *)
Theorem plan_trip_response_duration
        (query : str) (response : TripPlanResponse Activity) :
  snd (plan_trip get_activities_multi_provider make_activity query) = Ok response ->
  exists r,
    parse query = Ok r /\
    response_city response = city r /\
    response_duration_days response = duration_days r /\
    (duration_days r = None ->
     response_duration_days response = None /\
     fst (plan_trip get_activities_multi_provider make_activity query) = [mkCall (city r) 3 10]).
Proof.
  intros H. destruct (parse query) as [[c d]|e] eqn:P.
  2:{ unfold plan_trip, body in H. rewrite P in H. simpl in H.
      destruct e; discriminate. }
  exists (mkParseResult c d). split; [reflexivity|].
  destruct c as [|a c].
  - unfold plan_trip, body in H. rewrite P in H. simpl in H. discriminate.
  - assert (C : city (mkParseResult (a :: c) d) <> []) by discriminate.
    unfold plan_trip in *. rewrite (body_with_city _ _ P C) in *.
    simpl in *.
    destruct (get_activities_multi_provider (a :: c) (or_3 d) (limit_of d))
      as [acts|e]; simpl in H; [|destruct e; discriminate].
    destruct (activity_list make_activity acts) as [l|e]; simpl in H;
      [|destruct e; discriminate].
    injection H as <-. simpl.
    split; [reflexivity|]. split; [reflexivity|].
    intros ->. split; reflexivity.
Qed.

End Facts.

(** C7, as the claim words it, fails: when the lookup raises an
    [HTTPException], here with status 503, [plan_trip] passes it on and
    reports no error 500. *)
Lemma lookup_failure_always_500_fails :
  ~ (forall (RawActivity Activity : Type)
            (get : str -> Z -> Z -> result (list RawActivity))
            (make : RawActivity -> result Activity)
            (query : str) (r : ParseResult) (e : exn),
        parse query = Ok r ->
        city r <> [] ->
        get (city r) (or_3 (duration_days r)) (limit_of (duration_days r))
        = Raise e ->
        exists detail,
          snd (plan_trip get make query)
          = Raise (HTTPException 500 detail)).
Proof.
  intros H.
  destruct (H unit unit
              (fun _ _ _ => Raise (HTTPException 503 (L "Service Unavailable")))
              (fun _ => Ok tt)
              (L "3 days in Melbourne")
              (mkParseResult (L "Melbourne") (Some 3%Z))
              (HTTPException 503 (L "Service Unavailable")))
    as [detail D].
  - vm_compute. reflexivity.
  - discriminate.
  - reflexivity.
  - vm_compute in D. discriminate.
Qed.

Lemma plan_trip_lookup_request_witness :
  plan_trip (fun c d l => Ok [(c, d, l)]) (fun a : str * Z * Z => Ok a)
    (L "weekend trip to Tokyo")
  = ([mkCall (L "Tokyo") 2 4],
     Ok (mkTripPlanResponse (L "Tokyo") (Some 2%Z) [(L "Tokyo", 2%Z, 4%Z)])).
Proof.
  rewrite (plan_trip_lookup_request (str * Z * Z) (str * Z * Z)
             (fun c d l => Ok [(c, d, l)]) (fun a => Ok a)
             (L "weekend trip to Tokyo")
             (mkParseResult (L "Tokyo") (Some 2%Z))).
  - reflexivity.
  - vm_compute. reflexivity.
  - discriminate.
Defined.

Lemma plan_trip_failures_witness :
  snd (plan_trip (fun _ _ _ => @Raise (list unit) (Error (L "timeout")))
         (fun _ : unit => Ok tt) (L "3 days in Melbourne"))
  = Raise (HTTPException 500 (L "Failed to plan trip: timeout")).
Proof.
  destruct (plan_trip_failures unit unit
              (fun _ _ _ => Raise (Error (L "timeout"))) (fun _ => Ok tt)
              (L "3 days in Melbourne")
              (mkParseResult (L "Melbourne") (Some 3%Z)))
    as (_ & F & _).
  - vm_compute. reflexivity.
  - apply (F ltac:(discriminate) (Error (L "timeout")) eq_refl).
Defined.

Lemma plan_trip_response_duration_witness :
  exists r,
    parse (L "trip to Lisbon") = Ok r /\
    duration_days r = None /\
    fst (plan_trip (fun _ _ _ => Ok []) (fun _ : unit => Ok tt)
           (L "trip to Lisbon"))
    = [mkCall (city r) 3 10].
Proof.
  destruct (plan_trip_response_duration unit unit (fun _ _ _ => Ok [])
              (fun _ => Ok tt) (L "trip to Lisbon")
              (mkTripPlanResponse (L "Lisbon") None []))
    as (r & P & C & D & N).
  - vm_compute. reflexivity.
  - exists r. split; [exact P|]. simpl in D.
    split; [congruence|]. apply N. congruence.
Defined.

End PlannerFacts.

(* ================================================================== *)
(** ** Further facts about characters, texts and the matcher *)
(* ================================================================== *)

Module MoreFacts.

Import Str Re ReFacts StrFacts Notions.

Ltac each_char c := destruct c as [[] [] [] [] [] [] [] []]; vm_compute.

Lemma space_not_digit (c : ascii) : isspace c = true -> isdigit c = false.
Proof. each_char c; congruence. Qed.

Lemma digit_lower (c : ascii) : isdigit (lower_char c) = isdigit c.
Proof. each_char c; reflexivity. Qed.

Lemma lower_digit (c : ascii) : isdigit c = true -> lower_char c = c.
Proof. each_char c; congruence. Qed.

Lemma lower_space (c : ascii) : isspace c = true -> lower_char c = c.
Proof. each_char c; congruence. Qed.

Lemma lower_char_idem (c : ascii) : lower_char (lower_char c) = lower_char c.
Proof. each_char c; reflexivity. Qed.

Lemma lower_fixed (p : ascii -> bool) (s : str) :
  (forall c, p c = true -> lower_char c = c) ->
  forallb p s = true -> lower s = s.
Proof.
  intros F. induction s as [|c s IH]; simpl; intros H; [reflexivity|].
  apply andb_true_iff in H as [Hc Hs]. now rewrite (F c Hc), (IH Hs).
Qed.

Lemma lower_idem (s : str) : lower (lower s) = lower s.
Proof.
  unfold lower. rewrite map_map. apply map_ext. apply lower_char_idem.
Qed.

Lemma digit_free_lower (s : str) : digit_free s -> digit_free (lower s).
Proof.
  intros F c I. unfold lower in I. apply in_map_iff in I as (d & <- & I).
  rewrite digit_lower. now apply F.
Qed.

Lemma digit_free_hd (s : str) : digit_free s -> hd_not isdigit s = true.
Proof.
  destruct s as [|c s]; intros F; simpl; [reflexivity|].
  now rewrite (F c (or_introl eq_refl)).
Qed.

(** Two runs of digits that start at the same place and both stop at a
    character that is no digit are the same run. *)
Lemma digit_span_unique :
  forall x y B R,
    forallb isdigit x = true -> forallb isdigit y = true ->
    hd_not isdigit B = true -> hd_not isdigit R = true ->
    x ++ B = y ++ R -> x = y /\ B = R.
Proof.
  induction x as [|c x IH]; intros y B R Hx Hy HB HR E.
  - destruct y as [|d y]; [auto|]. simpl in *. subst B. simpl in HB.
    apply andb_true_iff in Hy as [Hd _]. rewrite Hd in HB. discriminate.
  - destruct y as [|d y]; simpl in *.
    + subst R. simpl in HR.
      apply andb_true_iff in Hx as [Hc _]. rewrite Hc in HR. discriminate.
    + injection E as -> E.
      apply andb_true_iff in Hx as [_ Hx].
      apply andb_true_iff in Hy as [_ Hy].
      destruct (IH _ _ _ Hx Hy HB HR E) as [-> ->]. auto.
Qed.

(** In a text whose only digits are the run [ds], a run of digits that stops
    at a character that is no digit stops where [ds] stops. *)
Lemma block_end :
  forall A pre ds rest ds' B,
    pre ++ ds ++ rest = A ++ ds' ++ B ->
    digit_free pre -> digit_free rest ->
    forallb isdigit ds = true -> forallb isdigit ds' = true ->
    ds' <> [] -> hd_not isdigit B = true ->
    A ++ ds' = pre ++ ds /\ B = rest.
Proof.
  induction A as [|a A IH]; intros pre ds rest ds' B E Fp Fr Hd Hd' N HB.
  - destruct ds' as [|d ds']; [congruence|]. simpl in E.
    assert (Dd : isdigit d = true) by (simpl in Hd'; now apply andb_true_iff in Hd').
    destruct pre as [|p pre].
    + simpl in E. symmetry in E.
      destruct (digit_span_unique _ _ _ _ Hd' Hd HB (digit_free_hd _ Fr) E)
        as [-> ->]. auto.
    + simpl in E. injection E as -> E.
      rewrite (Fp d (or_introl eq_refl)) in Dd. discriminate.
  - destruct pre as [|p pre].
    + destruct ds as [|d0 ds]; simpl in E.
      * exfalso. destruct ds' as [|d ds']; [congruence|].
        assert (Dd : isdigit d = true)
          by (simpl in Hd'; now apply andb_true_iff in Hd').
        rewrite Fr in Dd; [discriminate|]. rewrite E.
        right. apply in_or_app. right. now left.
      * injection E as -> E. simpl in Hd.
        apply andb_true_iff in Hd as [_ Hd].
        assert (F0 : digit_free []) by (intros c I; destruct I).
        destruct (IH [] ds rest ds' B E F0 Fr Hd Hd' N HB) as [E1 E2].
        simpl in E1. split; [|exact E2]. simpl. now rewrite E1.
    + simpl in E. injection E as -> E.
      assert (F1 : digit_free pre) by (intros c I; apply Fp; now right).
      destruct (IH pre ds rest ds' B E F1 Fr Hd Hd' N HB) as [E1 E2].
      split; [|exact E2]. simpl. now rewrite E1.
Qed.

(** ... and if it also starts after a character that is no digit, it is
    [ds]. *)
Lemma block_start (A pre ds ds' : str) :
  A ++ ds' = pre ++ ds ->
  digit_free pre ->
  forallb isdigit ds = true -> forallb isdigit ds' = true ->
  hd_not isdigit (rev A) = true ->
  A = pre /\ ds' = ds.
Proof.
  intros E Fp Hd Hd' HA.
  assert (E' : rev ds' ++ rev A = rev ds ++ rev pre)
    by (rewrite <- !rev_app_distr; now f_equal).
  assert (Fr : digit_free (rev pre))
    by (intros c I; apply Fp; now apply in_rev).
  assert (R : forall l, forallb isdigit l = true -> forallb isdigit (rev l) = true).
  { intros l H. rewrite forallb_forall in *. intros c I. apply H.
    now apply in_rev. }
  destruct (digit_span_unique _ _ _ _ (R _ Hd') (R _ Hd) HA
              (digit_free_hd _ Fr) E') as [E1 E2].
  split.
  - rewrite <- (rev_involutive A), E2. apply rev_involutive.
  - rewrite <- (rev_involutive ds'), E1. apply rev_involutive.
Qed.

(** Greedy repetition: when the whole run is of the class, the next character
    is not, and the rest of the pattern accepts after the whole run, that is
    the match. *)
Lemma run_plus_greedy (p : ascii -> bool) (k : cont) (g : option str) :
  forall x b rest res,
    x <> [] -> forallb p x = true -> hd_not p rest = true ->
    k g (rev x ++ b) rest = Some res ->
    run_plus p k g b (x ++ rest) = Some res.
Proof.
  induction x as [|c x IH]; intros b rest res N H HR K; [congruence|].
  simpl in H. apply andb_true_iff in H as [Hc Hx].
  simpl. rewrite Hc. destruct x as [|d x].
  - simpl in *. destruct rest as [|e rest]; simpl.
    + exact K.
    + simpl in HR. destruct (p e); [discriminate|]. exact K.
  - rewrite (IH (c :: b) rest res); [reflexivity|discriminate|exact Hx|exact HR|].
    simpl in *. now rewrite <- !app_assoc in *.
Qed.

(** A pattern that starts with a repetition does not match at a character
    outside the class. *)
Lemma search_from_skip (p : ascii -> bool) (r : regex) :
  forall pre b rest,
    (forall c, In c pre -> p c = false) ->
    search_from (Cat (Grp (Plus p)) r) b (pre ++ rest) =
    search_from (Cat (Grp (Plus p)) r) (rev pre ++ b) rest.
Proof.
  induction pre as [|c pre IH]; intros b rest F; [reflexivity|].
  simpl. rewrite (F c (or_introl eq_refl)).
  rewrite IH; [|intros d I; apply F; now right].
  now rewrite <- app_assoc.
Qed.

Lemma run_opt_accept (r : regex) (g : option str) (b rest : str) :
  groupless r ->
  run (Opt r) accept g b rest = Some g.
Proof.
  intros G. simpl. destruct (run r accept g b rest) as [g'|] eqn:E;
    [|reflexivity].
  simpl. destruct (run_sound _ _ _ _ _ _ E) as (x & rest' & g1 & _ & S & K).
  injection K as <-. now rewrite (sem_groupless _ _ _ _ _ _ S G).
Qed.

End MoreFacts.

(* ================================================================== *)
(** ** Further properties of the duration rules *)
(* ================================================================== *)

Module DurationFacts.

Import Str Re ReFacts StrFacts Parser ParserFacts Notions MoreFacts.

Lemma int_inv (ds : str) (n : Z) :
  int ds = Ok n -> ds <> [] /\ forallb isdigit ds = true.
Proof.
  unfold int. destruct ds as [|d ds]; simpl; [discriminate|].
  destruct (isdigit d && forallb isdigit ds) eqn:E; [|discriminate].
  intros _. split; [discriminate|reflexivity].
Qed.

Lemma hd_not_run (p q : ascii -> bool) (x rest : str) :
  (forall c, q c = true -> p c = false) ->
  x <> [] -> forallb q x = true -> hd_not p (x ++ rest) = true.
Proof.
  intros F N H. destruct x as [|c x]; [congruence|]. simpl in *.
  apply andb_true_iff in H as [Hc _]. now rewrite (F c Hc).
Qed.

Lemma forallb_rev (p : ascii -> bool) (x : str) :
  forallb p x = true -> forallb p (rev x) = true.
Proof.
  intros H. rewrite forallb_forall in *. intros c I. apply H.
  now apply in_rev.
Qed.

Lemma rev_nonempty (x : str) : x <> [] -> rev x <> [].
Proof.
  intros N E. apply N. rewrite <- (rev_involutive x), E. reflexivity.
Qed.

Lemma digit_free_app (a b : str) :
  digit_free a -> digit_free b -> digit_free (a ++ b).
Proof.
  intros Fa Fb c I. apply in_app_or in I as [I|I]; auto.
Qed.

Lemma digit_free_blanks (ws : str) : blanks ws -> digit_free ws.
Proof.
  intros [_ H] c I. rewrite forallb_forall in H.
  apply space_not_digit. now apply H.
Qed.

Lemma digit_free_literal (s : str) :
  forallb (fun c => negb (isdigit c)) s = true -> digit_free s.
Proof.
  intros H c I. rewrite forallb_forall in H. specialize (H c I).
  now destruct (isdigit c).
Qed.

(** Running a number, blanks, or the word "day(s)" over a text that holds
    them. *)
Lemma run_number_then (r : regex) (k : cont) (g : option str)
      (b ds R : str) (res : option str) :
  ds <> [] -> forallb isdigit ds = true -> hd_not isdigit R = true ->
  run r k (Some ds) (rev ds ++ b) R = Some res ->
  run (Cat number r) k g b (ds ++ R) = Some res.
Proof.
  intros N H HR K.
  change (run (Cat number r) k g b (ds ++ R))
    with (run_plus isdigit
            (fun _ b' rest' =>
               run r k
                 (Some (rev (firstn (List.length b' - List.length b) b')))
                 b' rest')
            g b (ds ++ R)).
  apply run_plus_greedy; auto. now rewrite firstn_rev_app.
Qed.

Lemma run_spaces_then (r : regex) (k : cont) (g : option str)
      (b ws R : str) (res : option str) :
  blanks ws -> hd_not isspace R = true ->
  run r k g (rev ws ++ b) R = Some res ->
  run (Cat spaces r) k g b (ws ++ R) = Some res.
Proof.
  intros [N H] HR K.
  change (run (Cat spaces r) k g b (ws ++ R))
    with (run_plus isspace (run r k) g b (ws ++ R)).
  now apply run_plus_greedy.
Qed.

Lemma run_days (g : option str) (b post : str) :
  run days accept g b (L "day" ++ post) = Some g.
Proof.
  change (run days accept g b (L "day" ++ post))
    with (run (lit (L "day")) (run (Opt (chr "s")) accept) g b
              (L "day" ++ post)).
  rewrite run_lit_app. apply run_opt_accept. exact I.
Qed.

Lemma search_from_hit (r : regex) (b rest : str) (g : option str) :
  run r accept None b rest = Some g -> search_from r b rest = Some g.
Proof. intros H. destruct rest; simpl; now rewrite H. Qed.

(** Every numeric-day pattern needs a digit. *)
Lemma day_patterns_digit (p : regex) (b x a : str) (g : option str) :
  In p day_patterns ->
  sem p b x a None g ->
  exists c, In c x /\ isdigit c = true.
Proof.
  intros I S.
  assert (N : forall r b x a g g',
             sem (Cat number r) b x a g g' ->
             exists c, In c x /\ isdigit c = true).
  { clear. intros r b x a g g' S.
    apply sem_cat_inv in S as (x1 & x2 & g1 & -> & S1 & _).
    apply sem_number in S1 as (_ & Hx & Hd).
    destruct x1 as [|c x1]; [congruence|]. exists c. split; [now left|].
    simpl in Hd. now apply andb_true_iff in Hd. }
  destruct I as [<-|[<-|[<-|[<-|[]]]]]; try (exact (N _ _ _ _ _ _ S)).
  apply sem_cat_inv in S as (x1 & x2 & g1 & -> & _ & S).
  apply sem_cat_inv in S as (x3 & x4 & g3 & -> & _ & S).
  apply N in S as (c & Ic & D). exists c. split; [|exact D].
  rewrite !in_app_iff. tauto.
Qed.

Lemma numeric_days_digit_free (query_lower : str) :
  digit_free query_lower ->
  forall ps, incl ps day_patterns -> numeric_days ps query_lower = Ok None.
Proof.
  intros F. induction ps as [|p ps IH]; intros I; simpl; [reflexivity|].
  assert (Is : incl ps day_patterns) by (intros y Hy; apply I; now right).
  destruct (search p query_lower) as [m|] eqn:Sp; [exfalso|now apply IH].
  apply search_sound in Sp as (pre & x & post & -> & S).
  apply day_patterns_digit in S as (c & Ic & D); [|apply I; now left].
  rewrite F in D; [discriminate|]. rewrite !in_app_iff. tauto.
Qed.

(** X1. A query without a digit gets its duration from the special cases
    alone, so it is 2, 7, 30 or absent. *)
Theorem duration_without_digits (query : str) :
  digit_free query ->
  _extract_duration query = Ok (special_cases (lower query)) /\
  exists c d,
    parse query = Ok (mkParseResult c d) /\
    (d = None \/ d = Some 2%Z \/ d = Some 7%Z \/ d = Some 30%Z).
Proof.
  intros F.
  assert (D : _extract_duration query = Ok (special_cases (lower query))).
  { unfold _extract_duration.
    now rewrite (numeric_days_digit_free _ (digit_free_lower _ F)
                   day_patterns (incl_refl _)). }
  split; [exact D|].
  assert (R : forall n, special_cases (lower query) = Some n ->
                        (1 <= n <= 365)%Z)
    by (intros n E; apply special_cases_values in E; lia).
  eexists. eexists. split; [apply (parse_eq _ _ D R)|].
  destruct (special_cases (lower query)) as [n|] eqn:E; [|now left].
  right. apply special_cases_values in E as [ -> | [ -> | -> ] ]; auto.
Qed.

Lemma duration_without_digits_witness :
  exists c d,
    parse (L "A long weekend in Rome") = Ok (mkParseResult c d) /\
    (d = None \/ d = Some 2%Z \/ d = Some 7%Z \/ d = Some 30%Z).
Proof.
  apply (duration_without_digits (L "A long weekend in Rome")).
  apply digit_free_literal. vm_compute. reflexivity.
Defined.

(** Where a pattern of the shape [(\d+)\s+...] matches, there is a run of
    digits followed by a blank. *)
Lemma sem_number_spaces (r : regex) (b x a : str) (g g' : option str) :
  groupless r ->
  sem (Cat number (Cat spaces r)) b x a g g' ->
  exists dn sp y,
    x = dn ++ sp ++ y /\ g' = Some dn /\
    dn <> [] /\ forallb isdigit dn = true /\ blanks sp.
Proof.
  intros G S. apply sem_cat_inv in S as (dn & x2 & g1 & -> & S1 & S2).
  apply sem_number in S1 as (-> & N & D).
  assert (G' : groupless (Cat spaces r)) by (simpl; auto).
  rewrite (sem_groupless _ _ _ _ _ _ S2 G').
  apply sem_cat_inv in S2 as (sp & y & g2 & -> & S3 & _).
  apply sem_plus_inv in S3 as (Ns & Hs & _).
  exists dn, sp, y. repeat split; auto.
Qed.

Lemma groupless_tail_days : groupless days.
Proof. simpl. pose proof (groupless_lit (L "day")). tauto. Qed.

(** In a text whose only digits are the run [ds], the pattern
    [for\s+(\d+)\s+days?] can only capture [ds]. *)
Lemma for_days_group (pre ds rest : str) (m : option str) :
  digit_free pre -> digit_free rest -> forallb isdigit ds = true ->
  search (Cat (lit (L "for")) (Cat spaces (Cat number (Cat spaces days))))
         (pre ++ ds ++ rest) = Some m ->
  m = Some ds.
Proof.
  intros Fp Fr Hd H.
  apply search_sound in H as (A & x & B & E & S).
  apply sem_cat_inv in S as (x1 & x2 & g1 & -> & S1 & S).
  apply sem_lit in S1 as [-> ->].
  apply sem_cat_inv in S as (sp0 & x3 & g3 & -> & S3 & S).
  apply sem_plus_inv in S3 as (N0 & H0 & ->).
  apply (sem_number_spaces _ _ _ _ _ _ groupless_tail_days) in S
    as (dn & sp & y & -> & -> & Nd & Hdn & Bsp).
  f_equal.
  assert (E' : pre ++ ds ++ rest =
               (A ++ L "for" ++ sp0) ++ dn ++ (sp ++ y ++ B))
    by (rewrite E; now rewrite <- !app_assoc).
  destruct Bsp as [Ns Hs].
  destruct (block_end _ _ _ _ _ _ E' Fp Fr Hd Hdn Nd
              (hd_not_run isdigit isspace sp (y ++ B) space_not_digit Ns Hs))
    as [E1 _].
  assert (HA : hd_not isdigit (rev (A ++ L "for" ++ sp0)) = true).
  { rewrite !rev_app_distr, <- app_assoc.
    apply (hd_not_run isdigit isspace _ _ space_not_digit).
    - now apply rev_nonempty.
    - now apply forallb_rev. }
  now destruct (block_start _ _ _ _ E1 Fp Hd Hdn HA).
Qed.

(** In such a text a pattern that starts with the number is tried at the
    run [ds] first. *)
Lemma number_first (r : regex) (pre ds rest : str) (res : option str) :
  digit_free pre -> digit_free rest ->
  ds <> [] -> forallb isdigit ds = true ->
  run r accept (Some ds) (rev ds ++ rev pre) rest = Some res ->
  search (Cat number r) (pre ++ ds ++ rest) = Some res.
Proof.
  intros Fp Fr N Hd K. unfold search.
  change (Cat number r) with (Cat (Grp (Plus isdigit)) r).
  rewrite (search_from_skip isdigit r pre [] (ds ++ rest) Fp).
  apply search_from_hit.
  change (Cat (Grp (Plus isdigit)) r) with (Cat number r).
  apply run_number_then; auto.
  - now apply digit_free_hd.
  - now rewrite app_nil_r.
Qed.

(** A pattern of the shape [...(\d+)\s+...] does not match when the only
    run of digits is followed by a character that is no blank. *)
Lemma number_spaces_nomatch (pre ds rest A pfx dn sp y B : str) :
  digit_free pre -> digit_free rest -> forallb isdigit ds = true ->
  hd_not isspace rest = true -> rest <> [] ->
  dn <> [] -> forallb isdigit dn = true -> blanks sp ->
  pre ++ ds ++ rest = A ++ (pfx ++ dn ++ sp ++ y) ++ B -> False.
Proof.
  intros Fp Fr Hd HR NR Nd Hdn [Ns Hs] E.
  assert (E' : pre ++ ds ++ rest = (A ++ pfx) ++ dn ++ (sp ++ y ++ B))
    by (rewrite E; now rewrite <- !app_assoc).
  destruct (block_end _ _ _ _ _ _ E' Fp Fr Hd Hdn Nd
              (hd_not_run isdigit isspace sp (y ++ B) space_not_digit Ns Hs))
    as [_ E2].
  destruct sp as [|c sp]; [congruence|]. subst rest. simpl in *.
  apply andb_true_iff in Hs as [Hc _]. rewrite Hc in HR. discriminate.
Qed.

Lemma numeric_days_phrase (pre ds ws post : str) (n : Z) :
  digit_free pre -> digit_free post -> blanks ws ->
  int ds = Ok n -> reasonable n = true ->
  numeric_days day_patterns (pre ++ ds ++ ws ++ L "day" ++ post)
  = Ok (Some n).
Proof.
  intros Fp Fq Bw I R.
  destruct (int_inv _ _ I) as [N Hd].
  assert (Fr : digit_free (ws ++ L "day" ++ post)).
  { apply digit_free_app; [now apply digit_free_blanks|].
    apply digit_free_app; [|exact Fq].
    apply digit_free_literal. reflexivity. }
  assert (G2 : search (Cat number (Cat spaces days))
                 (pre ++ ds ++ ws ++ L "day" ++ post) = Some (Some ds)).
  { apply number_first; auto.
    apply run_spaces_then; [exact Bw|reflexivity|]. apply run_days. }
  unfold day_patterns. cbn [numeric_days].
  destruct (search (Cat (lit (L "for"))
                      (Cat spaces (Cat number (Cat spaces days))))
              (pre ++ ds ++ ws ++ L "day" ++ post)) as [m|] eqn:S1.
  - rewrite (for_days_group _ _ _ _ Fp Fr Hd S1).
    cbn [group1]. rewrite I. cbn [bind]. now rewrite R.
  - rewrite G2. cbn [group1]. rewrite I. cbn [bind]. now rewrite R.
Qed.

Lemma numeric_hyphen_day (pre ds post : str) (n : Z) :
  digit_free pre -> digit_free post ->
  int ds = Ok n -> reasonable n = true ->
  numeric_days day_patterns (pre ++ ds ++ L "-day" ++ post) = Ok (Some n).
Proof.
  intros Fp Fq I R.
  destruct (int_inv _ _ I) as [N Hd].
  assert (Fr : digit_free (L "-day" ++ post)).
  { apply digit_free_app; [|exact Fq].
    apply digit_free_literal. reflexivity. }
  assert (G3 : search (Cat number (lit (L "-day")))
                 (pre ++ ds ++ L "-day" ++ post) = Some (Some ds)).
  { apply number_first; auto. }
  assert (N1 : search (Cat (lit (L "for"))
                         (Cat spaces (Cat number (Cat spaces days))))
                 (pre ++ ds ++ L "-day" ++ post) = None).
  { match goal with |- ?s = None => destruct s as [m|] eqn:S1 end;
      [exfalso|reflexivity].
    apply search_sound in S1 as (A & x & B & E & S).
    apply sem_cat_inv in S as (x1 & x2 & g1 & -> & S1 & S).
    apply sem_cat_inv in S as (sp0 & x3 & g3 & -> & _ & S).
    apply (sem_number_spaces _ _ _ _ _ _ groupless_tail_days) in S
      as (dn & sp & y & -> & _ & Nd & Hdn & Bsp).
    apply (number_spaces_nomatch pre ds (L "-day" ++ post) A (x1 ++ sp0)
             dn sp y B); auto; try discriminate.
    rewrite E. now rewrite <- !app_assoc. }
  assert (N2 : search (Cat number (Cat spaces days))
                 (pre ++ ds ++ L "-day" ++ post) = None).
  { match goal with |- ?s = None => destruct s as [m|] eqn:S1 end;
      [exfalso|reflexivity].
    apply search_sound in S1 as (A & x & B & E & S).
    apply (sem_number_spaces _ _ _ _ _ _ groupless_tail_days) in S
      as (dn & sp & y & -> & _ & Nd & Hdn & Bsp).
    apply (number_spaces_nomatch pre ds (L "-day" ++ post) A []
             dn sp y B); auto; discriminate. }
  unfold day_patterns. cbn [numeric_days].
  rewrite N1, N2, G3. cbn [group1]. rewrite I. cbn [bind]. now rewrite R.
Qed.

Lemma lower_literal_text (pre mid post : str) :
  lower mid = mid ->
  lower (pre ++ mid ++ post) = lower pre ++ mid ++ lower post.
Proof. intros E. now rewrite !lower_app, E. Qed.

Lemma duration_days_phrase (pre ds ws post : str) (n : Z) :
  digit_free pre -> digit_free post -> blanks ws ->
  int ds = Ok n -> (1 <= n <= 365)%Z ->
  _extract_duration (pre ++ ds ++ ws ++ L "day" ++ post) = Ok (Some n).
Proof.
  intros Fp Fq Bw I R.
  destruct (int_inv _ _ I) as [N Hd]. destruct Bw as [Nw Hw].
  unfold _extract_duration.
  assert (E : lower (pre ++ ds ++ ws ++ L "day" ++ post)
              = lower pre ++ ds ++ ws ++ L "day" ++ lower post).
  { rewrite !lower_app.
    rewrite (lower_fixed isdigit ds lower_digit Hd).
    rewrite (lower_fixed isspace ws lower_space Hw). reflexivity. }
  rewrite E.
  rewrite (numeric_days_phrase (lower pre) ds ws (lower post) n);
    auto using digit_free_lower.
  - split; assumption.
  - unfold reasonable. lia.
Qed.

(** X2. The phrase "<number> day(s)" in a query with no other digit gives
    the number as the duration, when it is between 1 and 365: whatever the
    text before it, however many blanks after the number, and whatever
    follows "day". *)
Theorem days_phrase (pre ds ws post : str) (n : Z) :
  digit_free pre -> digit_free post -> blanks ws ->
  int ds = Ok n -> (1 <= n <= 365)%Z ->
  exists c,
    parse (pre ++ ds ++ ws ++ L "day" ++ post) = Ok (mkParseResult c (Some n)).
Proof.
  intros Fp Fq Bw I R.
  pose proof (duration_days_phrase _ _ _ _ _ Fp Fq Bw I R) as D.
  eexists. apply (parse_eq _ _ D). now intros ? [= <-].
Qed.

Lemma days_phrase_witness :
  exists c,
    parse (L "Going to Perth for 12  days, maybe")
    = Ok (mkParseResult c (Some 12%Z)).
Proof.
  apply (days_phrase (L "Going to Perth for ") (L "12") (L "  ")
           (L "s, maybe") 12%Z).
  - apply digit_free_literal. reflexivity.
  - apply digit_free_literal. reflexivity.
  - split; [discriminate|reflexivity].
  - reflexivity.
  - lia.
Defined.

(** X3. Likewise "<number>-day" in a query with no other digit gives the
    number, when it is between 1 and 365. *)
Theorem hyphen_day_phrase (pre ds post : str) (n : Z) :
  digit_free pre -> digit_free post ->
  int ds = Ok n -> (1 <= n <= 365)%Z ->
  exists c,
    parse (pre ++ ds ++ L "-day" ++ post) = Ok (mkParseResult c (Some n)).
Proof.
  intros Fp Fq I R.
  destruct (int_inv _ _ I) as [N Hd].
  assert (D : _extract_duration (pre ++ ds ++ L "-day" ++ post)
              = Ok (Some n)).
  { unfold _extract_duration.
    assert (E : lower (pre ++ ds ++ L "-day" ++ post)
                = lower pre ++ ds ++ L "-day" ++ lower post).
    { rewrite !lower_app.
      rewrite (lower_fixed isdigit ds lower_digit Hd). reflexivity. }
    rewrite E.
    rewrite (numeric_hyphen_day (lower pre) ds (lower post) n);
      auto using digit_free_lower.
    unfold reasonable. lia. }
  eexists. apply (parse_eq _ _ D). now intros ? [= <-].
Qed.

Lemma hyphen_day_phrase_witness :
  exists c,
    parse (L "A 5-day trip to Kyoto") = Ok (mkParseResult c (Some 5%Z)).
Proof.
  apply (hyphen_day_phrase (L "A ") (L "5") (L " trip to Kyoto") 5%Z).
  - apply digit_free_literal. reflexivity.
  - apply digit_free_literal. reflexivity.
  - reflexivity.
  - lia.
Defined.

(** **** A number of more than [int_max_str_digits] digits *)

Lemma int_overlong (ds : str) :
  ds <> [] -> forallb isdigit ds = true ->
  (int_max_str_digits < List.length ds)%nat ->
  int ds =
  Raise (Error
           (L "Exceeds the limit (4300 digits) for integer string conversion: value has "
              ++ decimal (List.length ds)
              ++ L " digits; use sys.set_int_max_str_digits() to increase the limit")).
Proof.
  intros N Hd Len. unfold int. rewrite Hd.
  destruct ds as [|c ds]; [congruence|]. cbn [truthy andb].
  destruct (Nat.leb_spec (List.length (c :: ds)) int_max_str_digits);
    [lia|reflexivity].
Qed.

(** The conversion of the first number that a numeric-day pattern captures
    is not guarded: when it raises, so do the loop, [_extract_duration] and
    [parse]. *)
Lemma numeric_days_phrase_raise (pre ds ws post : str) (e : exn) :
  digit_free pre -> digit_free post -> blanks ws ->
  ds <> [] -> forallb isdigit ds = true ->
  int ds = Raise e ->
  numeric_days day_patterns (pre ++ ds ++ ws ++ L "day" ++ post) = Raise e.
Proof.
  intros Fp Fq Bw N Hd I.
  assert (Fr : digit_free (ws ++ L "day" ++ post)).
  { apply digit_free_app; [now apply digit_free_blanks|].
    apply digit_free_app; [|exact Fq].
    apply digit_free_literal. reflexivity. }
  assert (G2 : search (Cat number (Cat spaces days))
                 (pre ++ ds ++ ws ++ L "day" ++ post) = Some (Some ds)).
  { apply number_first; auto.
    apply run_spaces_then; [exact Bw|reflexivity|]. apply run_days. }
  unfold day_patterns. cbn [numeric_days].
  destruct (search (Cat (lit (L "for"))
                      (Cat spaces (Cat number (Cat spaces days))))
              (pre ++ ds ++ ws ++ L "day" ++ post)) as [m|] eqn:S1.
  - rewrite (for_days_group _ _ _ _ Fp Fr Hd S1).
    cbn [group1]. rewrite I. reflexivity.
  - rewrite G2. cbn [group1]. rewrite I. reflexivity.
Qed.

Lemma parse_phrase_raise (pre ds ws post : str) (e : exn) :
  digit_free pre -> digit_free post -> blanks ws ->
  ds <> [] -> forallb isdigit ds = true ->
  int ds = Raise e ->
  _extract_duration (pre ++ ds ++ ws ++ L "day" ++ post) = Raise e /\
  parse (pre ++ ds ++ ws ++ L "day" ++ post) = Raise e.
Proof.
  intros Fp Fq Bw N Hd I.
  assert (D : _extract_duration (pre ++ ds ++ ws ++ L "day" ++ post)
              = Raise e).
  { destruct Bw as [Nw Hw]. unfold _extract_duration.
    assert (E : lower (pre ++ ds ++ ws ++ L "day" ++ post)
                = lower pre ++ ds ++ ws ++ L "day" ++ lower post).
    { rewrite !lower_app.
      rewrite (lower_fixed isdigit ds lower_digit Hd).
      rewrite (lower_fixed isspace ws lower_space Hw). reflexivity. }
    rewrite E.
    rewrite (numeric_days_phrase_raise (lower pre) ds ws (lower post) e);
      auto using digit_free_lower.
    split; assumption. }
  split; [exact D|exact (parse_raise _ _ D)].
Qed.

Lemma ones_digits (n : nat) : forallb isdigit (repeat "1"%char n) = true.
Proof. induction n as [|n IH]; [reflexivity|exact IH]. Qed.

(** C4. The code breaks the claim on a matched number that [int] refuses to
    convert.  In the query made of 4301 digits "1" and " days, or a weekend"
    the second numeric-day pattern captures the 4301 digits, which are far
    outside [1, 365]; the claim has the number passed over and the parsing
    go on, to the weekend rule, which gives 2 on this query.  The code
    converts the number before it tests the range, and the conversion of a
    text of more than 4300 digits raises [ValueError]: [_extract_duration]
    and [parse] raise it, and no duration is returned at all. *)
Theorem overlong_number_ends_parsing :
  _extract_duration (repeat "1"%char 4301 ++ L " days, or a weekend")
  = Raise (Error
             (L "Exceeds the limit (4300 digits) for integer string conversion: value has 4301 digits; use sys.set_int_max_str_digits() to increase the limit")) /\
  parse (repeat "1"%char 4301 ++ L " days, or a weekend")
  = Raise (Error
             (L "Exceeds the limit (4300 digits) for integer string conversion: value has 4301 digits; use sys.set_int_max_str_digits() to increase the limit")) /\
  special_cases (lower (repeat "1"%char 4301 ++ L " days, or a weekend"))
  = Some 2%Z.
Proof.
  assert (N : repeat "1"%char 4301 <> []) by (cbn [repeat]; discriminate).
  pose proof (ones_digits 4301) as Hd.
  assert (I : int (repeat "1"%char 4301)
              = Raise (Error
                         (L "Exceeds the limit (4300 digits) for integer string conversion: value has 4301 digits; use sys.set_int_max_str_digits() to increase the limit"))).
  { rewrite (int_overlong _ N Hd).
    - rewrite repeat_length. vm_compute. reflexivity.
    - rewrite repeat_length. apply Nat.ltb_lt. vm_compute. reflexivity. }
  assert (Fp : digit_free []) by (intros c []).
  assert (Fq : digit_free (L "s, or a weekend"))
    by (apply digit_free_literal; reflexivity).
  assert (Bw : blanks (L " ")) by (split; [discriminate|reflexivity]).
  destruct (parse_phrase_raise [] (repeat "1"%char 4301) (L " ")
              (L "s, or a weekend") _ Fp Fq Bw N Hd I) as [D P].
  split; [exact D|]. split; [exact P|]. vm_compute. reflexivity.
Qed.

(** C8. The code breaks the claim on the query made of 4301 digits "1" and
    " days": the numeric-day pattern captures the digits, their conversion
    raises [ValueError], nothing in [_extract_duration] or [parse] catches
    it, and [parse] raises instead of returning a record. *)
Theorem parse_overlong_number_raises :
  parse (repeat "1"%char 4301 ++ L " days")
  = Raise (Error
             (L "Exceeds the limit (4300 digits) for integer string conversion: value has 4301 digits; use sys.set_int_max_str_digits() to increase the limit")).
Proof.
  assert (N : repeat "1"%char 4301 <> []) by (cbn [repeat]; discriminate).
  pose proof (ones_digits 4301) as Hd.
  assert (I : int (repeat "1"%char 4301)
              = Raise (Error
                         (L "Exceeds the limit (4300 digits) for integer string conversion: value has 4301 digits; use sys.set_int_max_str_digits() to increase the limit"))).
  { rewrite (int_overlong _ N Hd).
    - rewrite repeat_length. vm_compute. reflexivity.
    - rewrite repeat_length. apply Nat.ltb_lt. vm_compute. reflexivity. }
  assert (Fp : digit_free []) by (intros c []).
  assert (Fq : digit_free (L "s"))
    by (apply digit_free_literal; reflexivity).
  assert (Bw : blanks (L " ")) by (split; [discriminate|reflexivity]).
  destruct (parse_phrase_raise [] (repeat "1"%char 4301) (L " ")
              (L "s") _ Fp Fq Bw N Hd I) as [_ P].
  exact P.
Qed.

End DurationFacts.

(* ================================================================== *)
(** ** Further properties of the city rules *)
(* ================================================================== *)

Module CityFacts.

Import Str Re ReFacts StrFacts Parser ParserFacts Notions MoreFacts.

Lemma upper_plain (c : ascii) : isupper c = true -> plain c = true.
Proof. each_char c; congruence. Qed.

Lemma lower_plain (c : ascii) : islower c = true -> plain c = true.
Proof. each_char c; congruence. Qed.

Lemma space_plain (c : ascii) : isspace c = true -> plain c = true.
Proof. each_char c; congruence. Qed.

Lemma forallb_weaken (p q : ascii -> bool) (s : str) :
  (forall c, p c = true -> q c = true) ->
  forallb p s = true -> forallb q s = true.
Proof.
  intros F H. rewrite forallb_forall in *. auto.
Qed.

Lemma capitalized_plain (b x a : str) (g g' : option str) :
  sem capitalized b x a g g' -> forallb plain x = true.
Proof.
  intros S. apply sem_cat_inv in S as (x1 & x2 & g1 & -> & S1 & S2).
  apply sem_cls_inv in S1 as (c & -> & Hc & _).
  apply sem_plus_inv in S2 as (_ & Hl & _).
  simpl. rewrite (upper_plain _ Hc). simpl.
  exact (forallb_weaken _ _ _ lower_plain Hl).
Qed.

Lemma phrase_plain (b x a : str) (g g' : option str) :
  sem phrase b x a g g' -> forallb plain x = true.
Proof.
  intros S. apply sem_cat_inv in S as (x1 & x2 & g1 & -> & S1 & S2).
  rewrite forallb_app, (capitalized_plain _ _ _ _ _ S1). simpl.
  inversion S2 as [| | | | | |? ? ? ? ? ? S3|? ? ? ? E| |]; subst;
    [|reflexivity].
  apply sem_cat_inv in S3 as (x3 & x4 & g3 & -> & S4 & S5).
  apply sem_plus_inv in S4 as (_ & Hs & _).
  rewrite forallb_app, (capitalized_plain _ _ _ _ _ S5).
  now rewrite (forallb_weaken _ _ _ space_plain Hs).
Qed.

(** Group 1 of a contextual pattern is a phrase. *)
Lemma patterns_group_phrase (p : regex) (b x a : str) (g : option str) :
  In p patterns ->
  sem p b x a None g ->
  exists y b' a' g0 g1, g = Some y /\ sem phrase b' y a' g0 g1.
Proof.
  intros [<-|[<-|[]]] S.
  - apply sem_cat_inv in S as (x1 & x2 & g1 & -> & _ & S).
    apply sem_cat_inv in S as (x3 & x4 & g3 & -> & _ & S).
    apply sem_cat_inv in S as (x5 & x6 & g5 & -> & _ & S).
    apply sem_grp_inv in S as (-> & g6 & S). eauto 8.
  - apply sem_cat_inv in S as (x1 & x2 & g1 & -> & _ & S).
    apply sem_cat_inv in S as (x3 & x4 & g3 & -> & S & T).
    apply sem_grp_inv in S as (-> & g6 & S).
    assert (G : groupless (Cat (Plus isspace)
                  (Alt (lit (L "for"))
                       (Alt (lit (L "from")) (lit (L "starting"))))))
      by (simpl; pose proof (groupless_lit (L "for"));
          pose proof (groupless_lit (L "from"));
          pose proof (groupless_lit (L "starting")); tauto).
    rewrite (sem_groupless _ _ _ _ _ _ T G). eauto 8.
Qed.

Lemma contextual_plain (query c : str) :
  forall ps,
    incl ps patterns -> contextual ps query = Some c ->
    forallb plain c = true.
Proof.
  induction ps as [|p ps IH]; intros I H; simpl in H; [discriminate|].
  assert (Is : incl ps patterns) by (intros y Hy; apply I; now right).
  destruct (search p query) as [m|] eqn:Sp; [|now apply IH].
  destruct (negb (stoplisted (group1 m))); [|now apply IH].
  injection H as <-.
  apply search_sound in Sp as (pre & x & post & _ & S).
  apply patterns_group_phrase in S as (y & b' & a' & g0 & g1 & -> & P);
    [|apply I; now left].
  simpl. exact (phrase_plain _ _ _ _ _ P).
Qed.

Lemma cities_plain (c : str) : In c cities -> forallb plain c = true.
Proof.
  assert (A : forallb (forallb plain) cities = true)
    by (vm_compute; reflexivity).
  rewrite forallb_forall in A. apply A.
Qed.

Lemma cities_start_upper (c : str) : In c cities -> starts_upper c = true.
Proof.
  assert (A : forallb starts_upper cities = true)
    by (vm_compute; reflexivity).
  rewrite forallb_forall in A. apply A.
Qed.

Lemma scan_plain (c : str) :
  forall words, scan words = Some c -> forallb plain c = true.
Proof.
  induction words as [|w words IH]; intros H; simpl in H; [discriminate|].
  destruct (candidate (clean w)); [|now apply IH].
  destruct (same_city (clean w)) as [city|] eqn:E.
  - injection H as <-. apply find_some in E as [I _]. now apply cities_plain.
  - destruct (3 <? List.length (clean w))%nat; [|now apply IH].
    injection H as <-. unfold clean. rewrite forallb_forall.
    intros ch I. now apply filter_In in I.
Qed.

Lemma extract_city_shape (query c : str) :
  _extract_city query = Some c ->
  starts_upper c = true /\ forallb plain c = true.
Proof.
  intros H. pose proof H as H'. unfold _extract_city in H.
  destruct (known_city (lower query)) as [k|] eqn:K.
  - injection H as <-. unfold known_city in K.
    apply find_some in K as [I _].
    split; [now apply cities_start_upper|now apply cities_plain].
  - split; [exact (rules_2_3_start_upper _ _ K H')|].
    destruct (contextual patterns query) as [c'|] eqn:E.
    + injection H as <-.
      exact (contextual_plain _ _ _ (incl_refl _) E).
    + exact (scan_plain _ _ H).
Qed.

Lemma starts_upper_truthy (c : str) : starts_upper c = true -> truthy c = true.
Proof. destruct c; [discriminate|reflexivity]. Qed.

(** The city of the parsed record, from the extraction. *)
Lemma parse_city (query : str) (r : ParseResult) :
  parse query = Ok r ->
  city r = match _extract_city query with Some c => c | None => [] end.
Proof.
  intros P. rewrite (parse_city_of _ _ P).
  destruct (_extract_city query) as [c|] eqn:E; [|reflexivity].
  destruct (extract_city_shape _ _ E) as [U _].
  now rewrite (starts_upper_truthy _ U).
Qed.

(** X4. When [parse] returns on a query written in ASCII, its city is empty
    exactly when no rule found a city, and otherwise it begins with one of
    the upper-case letters A to Z. *)
Theorem parse_city_capitalised (query : str) (r : ParseResult) :
  ascii_text query ->
  parse query = Ok r ->
  (city r = [] <-> _extract_city query = None) /\
  (city r <> [] -> starts_upper (city r) = true).
Proof.
  intros _ P. rewrite (parse_city _ _ P).
  destruct (_extract_city query) as [c|] eqn:E.
  - destruct (extract_city_shape _ _ E) as [U _]. split; [|auto].
    split; [|discriminate]. intros ->. discriminate.
  - split; [tauto|congruence].
Qed.

Lemma parse_city_capitalised_witness :
  starts_upper (city (mkParseResult (L "Jose") None)) = true.
Proof.
  destruct (parse_city_capitalised (L "visiting san Jose from monday")
              (mkParseResult (L "Jose") None)) as [_ U].
  - reflexivity.
  - vm_compute. reflexivity.
  - apply U. discriminate.
Defined.

(** X5. When [parse] returns, its city holds no punctuation: every character
    of it is a letter, a digit, an underscore or a blank, whatever the
    punctuation of the query. *)
Theorem parse_city_plain (query : str) (r : ParseResult) :
  parse query = Ok r -> forallb plain (city r) = true.
Proof.
  intros P. rewrite (parse_city _ _ P).
  destruct (_extract_city query) as [c|] eqn:E; [|reflexivity].
  now destruct (extract_city_shape _ _ E).
Qed.

Lemma parse_city_plain_witness :
  forallb plain (city (mkParseResult (L "Hello") None)) = true.
Proof.
  apply (parse_city_plain (L "(Hello), world!")).
  vm_compute. reflexivity.
Defined.

(** X6. A query that is a listed city written in any mix of cases is parsed
    to the canonical spelling of that city, with no duration. *)
Theorem parse_recased_city (query c : str) :
  In c cities ->
  lower query = lower c ->
  parse query = Ok (mkParseResult c None).
Proof.
  intros I E.
  assert (A : forallb
                (fun c =>
                   match known_city (lower c), _extract_duration c with
                   | Some c', Ok None => eqb c' c
                   | _, _ => false
                   end) cities = true) by (vm_compute; reflexivity).
  rewrite forallb_forall in A. specialize (A c I).
  destruct (known_city (lower c)) as [c'|] eqn:K; [|discriminate].
  destruct (_extract_duration c) as [[n|]|e] eqn:D; try discriminate.
  apply eqb_eq in A. subst c'.
  assert (D' : _extract_duration query = Ok None)
    by (unfold _extract_duration in *; now rewrite E).
  rewrite (parse_eq _ _ D'); [|discriminate].
  unfold _extract_city. rewrite E, K.
  now rewrite (starts_upper_truthy _ (cities_start_upper _ I)).
Qed.

Lemma parse_recased_city_witness :
  parse (L "rIO DE jANEIRO") = Ok (mkParseResult (L "Rio de Janeiro") None).
Proof.
  apply parse_recased_city.
  - vm_compute. tauto.
  - reflexivity.
Defined.

(** **** A cue word followed by a capitalised word *)

Lemma space_not_upper (c : ascii) : isspace c = true -> isupper c = false.
Proof. each_char c; congruence. Qed.

Lemma lower_not_upper (c : ascii) : islower c = true -> isupper c = false.
Proof. each_char c; congruence. Qed.

Lemma upper_not_space (c : ascii) : isupper c = true -> isspace c = false.
Proof. each_char c; congruence. Qed.

Lemma no_upper_app (a b : str) : no_upper a -> no_upper b -> no_upper (a ++ b).
Proof. intros Ha Hb c I. apply in_app_or in I as [I|I]; auto. Qed.

Lemma no_upper_class (p : ascii -> bool) (s : str) :
  (forall c, p c = true -> isupper c = false) ->
  forallb p s = true -> no_upper s.
Proof.
  intros F H c I. rewrite forallb_forall in H. auto.
Qed.

Lemma cue_words_shape (cue : str) :
  In cue cue_words -> no_upper cue /\ word_at cue = true.
Proof.
  assert (A : forallb (fun w => forallb (fun c => negb (isupper c)) w
                                && word_at w) cue_words = true)
    by (vm_compute; reflexivity).
  intros I. rewrite forallb_forall in A. specialize (A cue I).
  apply andb_true_iff in A as [A B]. split; [|exact B].
  intros c Ic. rewrite forallb_forall in A. specialize (A c Ic).
  now destruct (isupper c).
Qed.

(** In a text with a single upper-case letter, a part that starts with an
    upper-case letter starts at that letter. *)
Lemma unique_upper :
  forall X P c u Y Z,
    X ++ c :: Y = P ++ u :: Z ->
    no_upper X -> no_upper Y -> isupper u = true ->
    P = X /\ u :: Z = c :: Y.
Proof.
  induction X as [|x X IH]; intros P c u Y Z E NX NY U.
  - destruct P as [|p P]; simpl in E.
    + injection E as -> ->. auto.
    + injection E as -> ->.
      rewrite NY in U; [discriminate|]. apply in_or_app. right. now left.
  - destruct P as [|p P]; simpl in E.
    + injection E as -> _. rewrite NX in U; [discriminate|now left].
    + injection E as -> E.
      destruct (IH P c u Y Z E) as [-> E2]; auto.
      intros d I. apply NX. now right.
Qed.

Lemma run_cat (r1 r2 : regex) (k : cont) (g : option str) (b rest : str) :
  run (Cat r1 r2) k g b rest = run r1 (run r2 k) g b rest.
Proof. reflexivity. Qed.

(** The group of the first contextual pattern, run at a capitalised word that
    is followed by no lower-case letter and no further upper-case letter, is
    that word. *)
Lemma run_group_word (g : option str) (b W post : str) :
  capital_word W = true -> no_upper post -> hd_not islower post = true ->
  run (Grp phrase) accept g b (W ++ post) = Some (Some W).
Proof.
  intros C NP HP. destruct W as [|c [|l ls]]; try discriminate.
  simpl in C. apply andb_true_iff in C as [Uc Hl].
  change (run (Grp phrase) accept g b ((c :: l :: ls) ++ post))
    with (if isupper c
          then run_plus islower
                 (run (Opt (Cat (Plus isspace) capitalized))
                    (fun _ b' rest' =>
                       accept
                         (Some (rev (firstn (List.length b' - List.length b)
                                       b'))) b' rest'))
                 g (c :: b) ((l :: ls) ++ post)
          else None).
  rewrite Uc. apply run_plus_greedy; auto; [discriminate|].
  change (run (Opt ?r) ?k ?g0 ?b0 ?rest0)
    with (orelse (run r k g0 b0 rest0) (k g0 b0 rest0)).
  destruct (run (Cat (Plus isspace) capitalized) _ g _ post) as [res|] eqn:E.
  - exfalso. apply run_sound in E as (x & rest' & g' & -> & S & _).
    apply sem_cat_inv in S as (x1 & x2 & g1 & -> & _ & S).
    apply capitalized_upper in S as (u & Iu & Uu).
    rewrite NP in Uu; [discriminate|]. rewrite !in_app_iff. tauto.
  - unfold orelse, accept. do 2 f_equal.
    replace (rev (l :: ls) ++ c :: b) with (rev (c :: l :: ls) ++ b)
      by (simpl; now rewrite <- !app_assoc).
    apply firstn_rev_app.
Qed.

Lemma cue_runs (cue : str) (k : cont) (g : option str) (b rest : str)
      (res : option str) :
  In cue cue_words ->
  k g (rev cue ++ b) rest = Some res ->
  exists res',
    run (Alt (lit (L "in"))
        (Alt (lit (L "to"))
        (Alt (lit (L "visiting"))
        (Alt (lit (L "going to"))
             (lit (L "traveling to"))))))
        k g b (cue ++ rest) = Some res'.
Proof.
  intros I K.
  assert (O : forall (a : option (option str)) r,
             (exists x, r = Some x) -> exists x, orelse a r = Some x)
    by (intros [x|] r [y ->]; simpl; eauto).
  assert (H : run (lit cue) k g b (cue ++ rest) = Some res)
    by (now rewrite run_lit_app).
  change (run (Alt ?r1 ?r2) k g b (cue ++ rest))
    with (orelse (run r1 k g b (cue ++ rest)) (run r2 k g b (cue ++ rest))).
  destruct I as [<-|[<-|[<-|[<-|[<-|[]]]]]].
  - rewrite H. simpl. eauto.
  - apply O.
    change (run (Alt ?r1 ?r2) k g b ?t)
      with (orelse (run r1 k g b t) (run r2 k g b t)).
    rewrite H. simpl. eauto.
  - apply O.
    change (run (Alt ?r1 ?r2) k g b ?t)
      with (orelse (run r1 k g b t) (run r2 k g b t)).
    apply O.
    change (run (Alt ?r1 ?r2) k g b ?t)
      with (orelse (run r1 k g b t) (run r2 k g b t)).
    rewrite H. simpl. eauto.
  - apply O.
    change (run (Alt ?r1 ?r2) k g b ?t)
      with (orelse (run r1 k g b t) (run r2 k g b t)).
    apply O.
    change (run (Alt ?r1 ?r2) k g b ?t)
      with (orelse (run r1 k g b t) (run r2 k g b t)).
    apply O.
    change (run (Alt ?r1 ?r2) k g b ?t)
      with (orelse (run r1 k g b t) (run r2 k g b t)).
    rewrite H. simpl. eauto.
  - apply O.
    change (run (Alt ?r1 ?r2) k g b ?t)
      with (orelse (run r1 k g b t) (run r2 k g b t)).
    apply O.
    change (run (Alt ?r1 ?r2) k g b ?t)
      with (orelse (run r1 k g b t) (run r2 k g b t)).
    apply O.
    change (run (Alt ?r1 ?r2) k g b ?t)
      with (orelse (run r1 k g b t) (run r2 k g b t)).
    apply O. rewrite H. eauto.
Qed.

Lemma capital_word_inv (W : str) :
  capital_word W = true ->
  exists c ls,
    W = c :: ls /\ isupper c = true /\ ls <> [] /\
    forallb islower ls = true.
Proof.
  destruct W as [|c [|l ls]]; try discriminate. simpl.
  intros H. apply andb_true_iff in H as [U H].
  exists c, (l :: ls). repeat split; auto. discriminate.
Qed.

(** Wherever the first contextual pattern matches in a text whose only
    upper-case letter begins the capitalised word [W], and where no
    lower-case letter follows [W], group 1 is [W]. *)
Lemma pattern_a_group (X W Y A R : str) (m : option str) :
  capital_word W = true ->
  no_upper X -> no_upper Y -> hd_not islower Y = true ->
  X ++ W ++ Y = A ++ R ->
  run pattern_a accept None (rev A) R = Some m ->
  m = Some W.
Proof.
  intros CW NX NY HY E H.
  destruct (capital_word_inv _ CW) as (c & ls & EW & Uc & Nls & Hls).
  unfold pattern_a in H.
  rewrite run_cat in H.
  apply run_sound in H as (x0 & R0 & g0 & -> & _ & H).
  rewrite run_cat in H.
  apply run_sound in H as (x1 & R1 & g1 & -> & _ & H).
  rewrite run_cat in H.
  apply run_sound in H as (x2 & R2 & g2 & -> & _ & H).
  pose proof H as H'.
  apply run_sound in H' as (y & R3 & g3 & -> & S & _).
  apply sem_grp_inv in S as (_ & g4 & S).
  apply phrase_starts_upper in S.
  destruct y as [|u y]; [discriminate|]. simpl in S.
  assert (E' : X ++ c :: (ls ++ Y)
               = (A ++ x0 ++ x1 ++ x2) ++ u :: (y ++ R3)).
  { rewrite EW in E. rewrite <- !app_assoc. exact E. }
  apply unique_upper in E' as [_ E']; auto.
  - assert (EQ : (u :: y) ++ R3 = W ++ Y) by (rewrite EW; exact E').
    rewrite EQ in H.
    rewrite run_group_word in H; auto. congruence.
  - apply no_upper_app; [|exact NY].
    exact (no_upper_class _ _ lower_not_upper Hls).
Qed.

Lemma pattern_a_cue_word (pre cue ws W post : str) :
  In cue cue_words ->
  no_upper pre -> no_upper post -> blanks ws ->
  capital_word W = true -> hd_not islower post = true ->
  word_at (rev pre) = false ->
  search pattern_a (pre ++ cue ++ ws ++ W ++ post) = Some (Some W).
Proof.
  intros Ic Npre Npost [Nw Hw] CW HP Bpre.
  destruct (cue_words_shape _ Ic) as [Ncue Wcue].
  destruct (capital_word_inv _ CW) as (c & ls & EW & Uc & Nls & Hls).
  assert (NX : no_upper (pre ++ cue ++ ws)).
  { apply no_upper_app; [exact Npre|].
    apply no_upper_app; [exact Ncue|].
    exact (no_upper_class _ _ space_not_upper Hw). }
  assert (M : exists m,
             run pattern_a accept None (rev pre) (cue ++ ws ++ W ++ post)
             = Some m).
  { unfold pattern_a. rewrite run_cat.
    change (run Bnd ?k None (rev pre) ?t)
      with (if xorb (word_at (rev pre)) (word_at t)
            then k None (rev pre) t else None).
    rewrite Bpre, (word_at_app _ _ Wcue). cbn [xorb]. rewrite run_cat.
    apply (cue_runs cue _ None (rev pre) (ws ++ W ++ post) (Some W) Ic).
    apply run_plus_greedy; auto.
    - rewrite EW. simpl. now rewrite (upper_not_space _ Uc).
    - now apply run_group_word. }
  destruct M as [m M].
  destruct (search pattern_a (pre ++ cue ++ ws ++ W ++ post)) as [m'|] eqn:S.
  - unfold search in S.
    apply search_from_some in S as (A & R & E & H).
    rewrite app_nil_r in H.
    assert (E' : (pre ++ cue ++ ws) ++ W ++ post = A ++ R)
      by (rewrite <- E; now rewrite <- !app_assoc).
    now rewrite (pattern_a_group _ _ _ _ _ _ CW NX Npost HP E' H).
  - pose proof (search_hit pattern_a pre (cue ++ ws ++ W ++ post) m M) as F.
    rewrite S in F. discriminate.
Qed.

(** X14. The first contextual pattern at work: in a query that mentions no
    listed city and whose only upper-case letter begins a capitalised word
    [W] that comes after a cue word ("in", "to", "visiting", "going to",
    "traveling to") and blanks, the city extraction returns [W], and so
    does [parse] when it returns, provided that the cue word starts at a
    word boundary, that no lower-case letter follows [W], and that [W] is
    not on the stoplist. *)
Theorem cue_phrase (pre cue ws W post : str) :
  In cue cue_words ->
  no_upper pre -> no_upper post -> blanks ws ->
  capital_word W = true -> hd_not islower post = true ->
  word_at (rev pre) = false ->
  stoplisted W = false ->
  (forall c, In c cities -> ~ mentions (pre ++ cue ++ ws ++ W ++ post) c) ->
  _extract_city (pre ++ cue ++ ws ++ W ++ post) = Some W /\
  (forall r, parse (pre ++ cue ++ ws ++ W ++ post) = Ok r -> city r = W).
Proof.
  intros Ic Npre Npost Bw CW HP Bpre SL M.
  assert (E : _extract_city (pre ++ cue ++ ws ++ W ++ post) = Some W).
  { unfold _extract_city.
    rewrite (known_city_none _ M).
    unfold patterns. cbn [contextual].
    rewrite (pattern_a_cue_word _ _ _ _ _ Ic Npre Npost Bw CW HP Bpre).
    cbn [group1]. now rewrite SL. }
  split; [exact E|]. intros r P. now rewrite (parse_city _ _ P), E.
Qed.

Lemma cue_phrase_witness :
  _extract_city (L "a week, traveling to  Zanzibar!") = Some (L "Zanzibar").
Proof.
  apply (cue_phrase (L "a week, ") (L "traveling to") (L "  ")
           (L "Zanzibar") (L "!")).
  - vm_compute. tauto.
  - apply (no_upper_class (fun c => negb (isupper c))).
    + intros c H. now destruct (isupper c).
    + reflexivity.
  - apply (no_upper_class (fun c => negb (isupper c))).
    + intros c H. now destruct (isupper c).
    + reflexivity.
  - split; [discriminate|reflexivity].
  - reflexivity.
  - reflexivity.
  - reflexivity.
  - reflexivity.
  - apply not_mentioned. vm_compute. reflexivity.
Defined.

(** **** A capitalised word followed by a cue word *)

Lemma space_not_lower (c : ascii) : isspace c = true -> islower c = false.
Proof. each_char c; congruence. Qed.

Lemma upper_word (c : ascii) : isupper c = true -> isword c = true.
Proof. each_char c; congruence. Qed.

Lemma class_span_unique (p : ascii -> bool) :
  forall x y B R,
    forallb p x = true -> forallb p y = true ->
    hd_not p B = true -> hd_not p R = true ->
    x ++ B = y ++ R -> x = y /\ B = R.
Proof.
  induction x as [|c x IH]; intros y B R Hx Hy HB HR E.
  - destruct y as [|d y]; [auto|]. simpl in *. subst B. simpl in HB.
    apply andb_true_iff in Hy as [Hd _]. rewrite Hd in HB. discriminate.
  - destruct y as [|d y]; simpl in *.
    + subst R. simpl in HR.
      apply andb_true_iff in Hx as [Hc _]. rewrite Hc in HR. discriminate.
    + injection E as -> E.
      apply andb_true_iff in Hx as [_ Hx].
      apply andb_true_iff in Hy as [_ Hy].
      destruct (IH _ _ _ Hx Hy HB HR E) as [-> ->]. auto.
Qed.

Lemma hd_not_blanks (p : ascii -> bool) (ws rest : str) :
  (forall c, isspace c = true -> p c = false) ->
  blanks ws -> hd_not p (ws ++ rest) = true.
Proof.
  intros F [N H]. destruct ws as [|c ws]; [congruence|]. simpl in *.
  apply andb_true_iff in H as [Hc _]. now rewrite (F c Hc).
Qed.

(** The group, run at a capitalised word that is followed by no lower-case
    letter and no further upper-case letter, is that word, if the rest of the
    pattern accepts after it. *)
Lemma run_group_word_then (k : cont) (g : option str) (b W rest : str)
      (res : option str) :
  capital_word W = true -> no_upper rest -> hd_not islower rest = true ->
  k (Some W) (rev W ++ b) rest = Some res ->
  run (Grp phrase) k g b (W ++ rest) = Some res.
Proof.
  intros C NP HP K. destruct W as [|c [|l ls]]; try discriminate.
  simpl in C. apply andb_true_iff in C as [Uc Hl].
  change (run (Grp phrase) k g b ((c :: l :: ls) ++ rest))
    with (if isupper c
          then run_plus islower
                 (run (Opt (Cat (Plus isspace) capitalized))
                    (fun _ b' rest' =>
                       k (Some (rev (firstn (List.length b' - List.length b)
                                       b'))) b' rest'))
                 g (c :: b) ((l :: ls) ++ rest)
          else None).
  rewrite Uc. apply run_plus_greedy; auto; [discriminate|].
  change (run (Opt ?r) ?k0 ?g0 ?b0 ?rest0)
    with (orelse (run r k0 g0 b0 rest0) (k0 g0 b0 rest0)).
  destruct (run (Cat (Plus isspace) capitalized) _ g _ rest) as [r|] eqn:E.
  - exfalso. apply run_sound in E as (x & rest' & g' & -> & S & _).
    apply sem_cat_inv in S as (x1 & x2 & g1 & -> & _ & S).
    apply capitalized_upper in S as (u & Iu & Uu).
    rewrite NP in Uu; [discriminate|]. rewrite !in_app_iff. tauto.
  - unfold orelse.
    replace (rev (l :: ls) ++ c :: b) with (rev (c :: l :: ls) ++ b)
      by (simpl; now rewrite <- !app_assoc).
    now rewrite firstn_rev_app.
Qed.

Lemma suffix_cue_words_shape (cb rest : str) :
  In cb suffix_cue_words ->
  no_upper cb /\ hd_not isspace (cb ++ rest) = true.
Proof.
  intros [<-|[<-|[<-|[]]]]; (split; [|reflexivity]);
    apply (no_upper_class (fun c => negb (isupper c)));
    try reflexivity; intros c H; now destruct (isupper c).
Qed.

Lemma suffix_cue_runs (cb : str) (k : cont) (g : option str) (b rest : str)
      (res : option str) :
  In cb suffix_cue_words ->
  k g (rev cb ++ b) rest = Some res ->
  exists res',
    run (Alt (lit (L "for")) (Alt (lit (L "from")) (lit (L "starting"))))
        k g b (cb ++ rest) = Some res'.
Proof.
  intros I K.
  assert (O : forall (a : option (option str)) r,
             (exists x, r = Some x) -> exists x, orelse a r = Some x)
    by (intros [x|] r [y ->]; simpl; eauto).
  assert (H : run (lit cb) k g b (cb ++ rest) = Some res)
    by (now rewrite run_lit_app).
  change (run (Alt ?r1 ?r2) k g b (cb ++ rest))
    with (orelse (run r1 k g b (cb ++ rest)) (run r2 k g b (cb ++ rest))).
  destruct I as [<-|[<-|[<-|[]]]].
  - rewrite H. simpl. eauto.
  - apply O.
    change (run (Alt ?r1 ?r2) k g b ?t)
      with (orelse (run r1 k g b t) (run r2 k g b t)).
    rewrite H. simpl. eauto.
  - apply O.
    change (run (Alt ?r1 ?r2) k g b ?t)
      with (orelse (run r1 k g b t) (run r2 k g b t)).
    apply O. rewrite H. eauto.
Qed.

(** Wherever the second contextual pattern matches in a text whose only
    upper-case letter begins the capitalised word [W], followed by a blank,
    group 1 is [W]. *)
Lemma pattern_b_group (X W ws Y : str) (m : option str) :
  capital_word W = true -> no_upper X -> no_upper Y -> blanks ws ->
  search pattern_b (X ++ W ++ ws ++ Y) = Some m ->
  m = Some W.
Proof.
  intros CW NX NY Bw H.
  destruct (capital_word_inv _ CW) as (c & ls & EW & Uc & Nls & Hls).
  assert (NR : no_upper (ls ++ ws ++ Y)).
  { apply no_upper_app; [exact (no_upper_class _ _ lower_not_upper Hls)|].
    apply no_upper_app; [|exact NY].
    destruct Bw as [_ Hw]. exact (no_upper_class _ _ space_not_upper Hw). }
  apply search_sound in H as (A & x & B & E & S).
  unfold pattern_b in S.
  apply sem_cat_inv in S as (x0 & x1 & g0 & -> & S0 & S).
  apply sem_bnd_inv in S0 as (-> & -> & _).
  apply sem_cat_inv in S as (y & x2 & g1 & -> & S1 & S2).
  apply sem_grp_inv in S1 as (-> & g2 & P).
  assert (G : groupless (Cat (Plus isspace)
                (Alt (lit (L "for"))
                     (Alt (lit (L "from")) (lit (L "starting"))))))
    by (simpl; pose proof (groupless_lit (L "for"));
        pose proof (groupless_lit (L "from"));
        pose proof (groupless_lit (L "starting")); tauto).
  rewrite (sem_groupless _ _ _ _ _ _ S2 G). f_equal.
  apply sem_cat_inv in S2 as (sp & cw & g3 & -> & S3 & _).
  apply sem_plus_inv in S3 as (Nsp & Hsp & _).
  apply sem_cat_inv in P as (y1 & y2 & g4 & -> & P1 & P2).
  apply sem_cat_inv in P1 as (yu & l1 & g5 & -> & Pu & Pl).
  apply sem_cls_inv in Pu as (u & -> & Uu & _).
  apply sem_plus_inv in Pl as (Nl1 & Hl1 & _).
  assert (E' : X ++ c :: (ls ++ ws ++ Y)
               = A ++ u :: (l1 ++ y2 ++ sp ++ cw ++ B)).
  { rewrite EW in E. simpl in E. rewrite <- ?app_assoc in E.
    simpl in E. rewrite <- ?app_assoc in E. exact E. }
  apply unique_upper in E' as [_ E']; auto.
  injection E' as -> E'.
  inversion P2 as [| | | | | |? ? ? ? ? ? P3|? ? ? ? Ey| |]; subst.
  - exfalso.
    apply sem_cat_inv in P3 as (x3 & x4 & g6 & -> & _ & P4).
    apply capitalized_upper in P4 as (u2 & I2 & U2).
    rewrite NR in U2; [discriminate|]. rewrite <- E'.
    rewrite !in_app_iff. tauto.
  - simpl in E'.
    assert (F : l1 = ls /\ sp ++ cw ++ B = ws ++ Y).
    { apply (class_span_unique islower); auto.
      - exact (hd_not_blanks islower sp (cw ++ B) space_not_lower
                 (conj Nsp Hsp)).
      - exact (hd_not_blanks islower ws Y space_not_lower Bw). }
    destruct F as [-> _]. now rewrite app_nil_r.
Qed.

Lemma pattern_b_suffix_cue (pre W ws cb post : str) :
  In cb suffix_cue_words ->
  no_upper pre -> no_upper post -> blanks ws ->
  capital_word W = true ->
  word_at (rev pre) = false ->
  search pattern_b (pre ++ W ++ ws ++ cb ++ post) = Some (Some W).
Proof.
  intros Ic Npre Npost Bw CW Bpre.
  destruct (suffix_cue_words_shape cb post Ic) as [Ncb Hcb].
  destruct (capital_word_inv _ CW) as (c & ls & EW & Uc & Nls & Hls).
  assert (NY : no_upper (cb ++ post)) by (now apply no_upper_app).
  assert (NR : no_upper (ws ++ cb ++ post)).
  { apply no_upper_app; [|exact NY].
    destruct Bw as [_ Hw]. exact (no_upper_class _ _ space_not_upper Hw). }
  assert (M : exists m,
             run pattern_b accept None (rev pre) (W ++ ws ++ cb ++ post)
             = Some m).
  { destruct (suffix_cue_runs cb accept (Some W)
                (rev ws ++ rev W ++ rev pre) post (Some W) Ic eq_refl)
      as [res Hres].
    exists res. unfold pattern_b. rewrite run_cat.
    change (run Bnd ?k None (rev pre) ?t)
      with (if xorb (word_at (rev pre)) (word_at t)
            then k None (rev pre) t else None).
    assert (WW : word_at (W ++ ws ++ cb ++ post) = true)
      by (rewrite EW; simpl; now apply upper_word).
    rewrite Bpre, WW. cbn [xorb]. rewrite run_cat.
    apply run_group_word_then; auto.
    - exact (hd_not_blanks islower ws _ space_not_lower Bw).
    - rewrite run_cat. destruct Bw as [Nw Hw].
      apply run_plus_greedy; auto. }
  destruct M as [m M].
  destruct (search pattern_b (pre ++ W ++ ws ++ cb ++ post)) as [m'|] eqn:S.
  - now rewrite (pattern_b_group _ _ _ _ _ CW Npre NY Bw S).
  - pose proof (search_hit pattern_b pre (W ++ ws ++ cb ++ post) m M) as F.
    rewrite S in F. discriminate.
Qed.

(** X15. The second contextual pattern at work: in a query that mentions no
    listed city and whose only upper-case letter begins a capitalised word
    [W] that starts at a word boundary and is followed by blanks and a cue
    word ("for", "from", "starting"), the city extraction returns [W], and
    so does [parse] when it returns, provided that [W] is not on the
    stoplist. *)
Theorem suffix_cue_phrase (pre W ws cb post : str) :
  In cb suffix_cue_words ->
  no_upper pre -> no_upper post -> blanks ws ->
  capital_word W = true ->
  word_at (rev pre) = false ->
  stoplisted W = false ->
  (forall c, In c cities -> ~ mentions (pre ++ W ++ ws ++ cb ++ post) c) ->
  _extract_city (pre ++ W ++ ws ++ cb ++ post) = Some W /\
  (forall r, parse (pre ++ W ++ ws ++ cb ++ post) = Ok r -> city r = W).
Proof.
  intros Ic Npre Npost Bw CW Bpre SL M.
  destruct (suffix_cue_words_shape cb post Ic) as [Ncb _].
  assert (C : contextual patterns (pre ++ W ++ ws ++ cb ++ post) = Some W).
  { unfold patterns. cbn [contextual].
    destruct (search pattern_a (pre ++ W ++ ws ++ cb ++ post)) as [m|] eqn:S.
    - unfold search in S. apply search_from_some in S as (A & R' & E & H).
      rewrite app_nil_r in H.
      assert (NY : no_upper (ws ++ cb ++ post)).
      { apply no_upper_app; [|now apply no_upper_app].
        destruct Bw as [_ Hw].
        exact (no_upper_class _ _ space_not_upper Hw). }
      rewrite (pattern_a_group pre W (ws ++ cb ++ post) A R' m CW Npre NY
                 (hd_not_blanks islower ws _ space_not_lower Bw) E H).
      cbn [group1]. now rewrite SL.
    - rewrite (pattern_b_suffix_cue _ _ _ _ _ Ic Npre Npost Bw CW Bpre).
      cbn [group1]. now rewrite SL. }
  assert (E : _extract_city (pre ++ W ++ ws ++ cb ++ post) = Some W)
    by (unfold _extract_city; now rewrite (known_city_none _ M), C).
  split; [exact E|]. intros r P. now rewrite (parse_city _ _ P), E.
Qed.

Lemma suffix_cue_phrase_witness :
  _extract_city (L "we leave Zanzibar  from monday on")
  = Some (L "Zanzibar").
Proof.
  apply (suffix_cue_phrase (L "we leave ") (L "Zanzibar") (L "  ")
           (L "from") (L " monday on")).
  - vm_compute. tauto.
  - apply (no_upper_class (fun c => negb (isupper c))).
    + intros c H. now destruct (isupper c).
    + reflexivity.
  - apply (no_upper_class (fun c => negb (isupper c))).
    + intros c H. now destruct (isupper c).
    + reflexivity.
  - split; [discriminate|reflexivity].
  - reflexivity.
  - reflexivity.
  - reflexivity.
  - apply not_mentioned. vm_compute. reflexivity.
Defined.

End CityFacts.

(* ================================================================== *)
(** ** Further properties of the endpoints *)
(* ================================================================== *)

Module EndpointFacts.

Import Str Parser ParserFacts Planner PlannerFacts Notions CityFacts
       DurationFacts.

Section Facts.

Variable RawActivity : Type.
Variable Activity : Type.
Variable get_activities_multi_provider :
  str -> Z -> Z -> result (list RawActivity).
Variable make_activity : RawActivity -> result Activity.

(** [plan_trip] when the parser raises, when it finds no city, and when it
    finds one. *)
Lemma plan_trip_raise (query : str) (e : exn) :
  parse query = Raise e ->
  plan_trip get_activities_multi_provider make_activity query =
  ([], handlers (Raise e)).
Proof. intros P. unfold plan_trip, body. now rewrite P. Qed.

Lemma plan_trip_none (query : str) (r : ParseResult) :
  parse query = Ok r ->
  _extract_city query = None ->
  plan_trip get_activities_multi_provider make_activity query =
  ([], Raise (HTTPException 400 no_city_detail)).
Proof.
  intros P E. pose proof (parse_city _ _ P) as C. rewrite E in C.
  unfold plan_trip, body. now rewrite P, C.
Qed.

Lemma plan_trip_some (query c : str) (r : ParseResult) :
  parse query = Ok r ->
  _extract_city query = Some c ->
  exists d,
    (forall n, d = Some n -> (1 <= n <= 365)%Z) /\
    r = mkParseResult c d /\
    plan_trip get_activities_multi_provider make_activity query =
    ([mkCall c (or_3 d) (limit_of d)],
     handlers
       (activities <- get_activities_multi_provider c (or_3 d) (limit_of d) ;;
        l <- activity_list make_activity activities ;;
        Ok (mkTripPlanResponse c d l))).
Proof.
  intros P E. pose proof (parse_city _ _ P) as C. rewrite E in C.
  destruct r as [c' d]. simpl in C. subst c'.
  exists d. split; [exact (fun n => parse_duration_in_range _ _ n P)|].
  split; [reflexivity|].
  destruct (extract_city_shape _ _ E) as [U _].
  assert (N : city (mkParseResult c d) <> [])
    by (simpl; intros ->; discriminate).
  unfold plan_trip.
  now rewrite (body_with_city _ _ get_activities_multi_provider
                 make_activity _ _ P N).
Qed.

(** The parser raises nothing but the [ValueError] of [int]. *)
Lemma int_raise (s : str) (e : exn) :
  int s = Raise e -> exists description, e = Error description.
Proof.
  unfold int. intros H.
  destruct (Str.truthy s && forallb Str.isdigit s);
    [destruct (List.length s <=? int_max_str_digits)%nat; [discriminate|]|];
    injection H as <-; eauto.
Qed.

Lemma numeric_days_raise (query_lower : str) (e : exn) :
  forall ps,
    numeric_days ps query_lower = Raise e ->
    exists description, e = Error description.
Proof.
  induction ps as [|p ps IH]; intros H; cbn [numeric_days] in H;
    [discriminate|].
  destruct (Re.search p query_lower) as [m|]; [|now apply IH].
  destruct (int (Re.group1 m)) as [n|e'] eqn:I; cbn [bind] in H.
  - destruct (reasonable n); [discriminate|now apply IH].
  - injection H as <-. exact (int_raise _ _ I).
Qed.

Lemma parse_raise_error (query : str) (e : exn) :
  parse query = Raise e -> exists description, e = Error description.
Proof.
  unfold parse, _extract_duration. intros H.
  destruct (numeric_days day_patterns (Str.lower query)) as [[k|]|e'] eqn:N;
    cbn [bind] in H; try discriminate.
  injection H as <-. exact (numeric_days_raise _ _ _ N).
Qed.

Lemma defaults_in_range (d : option Z) :
  (forall n, d = Some n -> (1 <= n <= 365)%Z) ->
  (1 <= or_3 d <= 365)%Z /\
  (2 <= limit_of d <= 730)%Z /\
  (d = None -> or_3 d = 3%Z /\ limit_of d = 10%Z) /\
  (forall n, d = Some n -> or_3 d = n /\ limit_of d = (2 * n)%Z).
Proof.
  intros R. destruct d as [n|]; cbn [or_3 limit_of known].
  - specialize (R n eq_refl). destruct (Z.eqb_spec n 0); [lia|].
    cbn [negb].
    split; [lia|]. split; [lia|]. split; [discriminate|].
    intros ? [= <-]. split; [reflexivity|lia].
  - split; [lia|]. split; [lia|]. split; [auto|discriminate].
Qed.

(** X7. Whatever the query, [plan_trip] calls the POI service at most once,
    and every call has a city that begins with an upper-case letter, a number
    of days between 1 and 365, and a limit between 2 and 730 that is twice
    the number of days unless the call is the default one (3 days, limit
    10). *)
Theorem plan_trip_calls (query : str) :
  (List.length
     (fst (plan_trip get_activities_multi_provider make_activity query))
   <= 1)%nat /\
  forall call,
    In call
       (fst (plan_trip get_activities_multi_provider make_activity query)) ->
    starts_upper (call_city call) = true /\
    (1 <= call_duration_days call <= 365)%Z /\
    (2 <= call_limit call <= 730)%Z /\
    (call_limit call = (2 * call_duration_days call)%Z \/
     (call_duration_days call = 3%Z /\ call_limit call = 10%Z)).
Proof.
  destruct (parse query) as [r|e] eqn:P;
    [|rewrite (plan_trip_raise _ _ P); simpl; split; [lia|intros call []]].
  destruct (_extract_city query) as [c|] eqn:E.
  - destruct (plan_trip_some _ _ _ P E) as (d & R & _ & ->). simpl.
    split; [lia|]. intros call [<-|[]]. simpl.
    destruct (extract_city_shape _ _ E) as [U _].
    destruct (defaults_in_range d R) as (A & B & N & S).
    repeat split; try tauto; try lia.
    destruct d as [n|].
    + left. destruct (S n eq_refl) as [-> ->]. reflexivity.
    + right. now apply N.
  - rewrite (plan_trip_none _ _ P E). simpl. split; [lia|]. intros call [].
Qed.

(** X8. When the parser returns, [plan_trip] makes no call to the POI
    service exactly when the parser found no city, and the request is then
    refused with the error 400.  When the parser raises, [plan_trip] makes no
    call either and answers with the error 500, whose detail is "Failed to
    plan trip: " and the description of the exception.  And whatever fails,
    the exception that leaves [plan_trip] is an [HTTPException]. *)
Theorem plan_trip_no_city (query : str) :
  (forall r,
      parse query = Ok r ->
      (_extract_city query = None <->
       fst (plan_trip get_activities_multi_provider make_activity query)
       = []) /\
      (_extract_city query = None ->
       snd (plan_trip get_activities_multi_provider make_activity query) =
       Raise (HTTPException 400 no_city_detail))) /\
  (forall e,
      parse query = Raise e ->
      exists description,
        e = Error description /\
        plan_trip get_activities_multi_provider make_activity query =
        ([], Raise (HTTPException 500
                      (L "Failed to plan trip: " ++ description)))) /\
  (forall e,
      snd (plan_trip get_activities_multi_provider make_activity query) =
      Raise e ->
      exists status_code detail, e = HTTPException status_code detail).
Proof.
  split; [|split].
  - intros r P. destruct (_extract_city query) as [c|] eqn:E.
    + destruct (plan_trip_some _ _ _ P E) as (d & R & _ & ->). simpl.
      split; [split; discriminate|discriminate].
    + rewrite (plan_trip_none _ _ P E). simpl. tauto.
  - intros e P. destruct (parse_raise_error _ _ P) as [description ->].
    exists description. split; [reflexivity|].
    now rewrite (plan_trip_raise _ _ P).
  - intros e H. unfold plan_trip in H.
    destruct (body _ _ query) as [calls [resp|[st dt|ds]]]; simpl in H;
      try discriminate; injection H as <-; eauto.
Qed.

Lemma activity_list_ok (activities : list RawActivity) :
  forall l,
    activity_list make_activity activities = Ok l <->
    Forall2 (fun a x => make_activity a = Ok x) activities l.
Proof.
  induction activities as [|a rest IH]; intros l; simpl.
  - split.
    + intros [= <-]. constructor.
    + intros H. inversion H. reflexivity.
  - split.
    + destruct (make_activity a) as [x|e] eqn:M; [|discriminate]. simpl.
      destruct (activity_list make_activity rest) as [l'|e] eqn:A;
        [|discriminate]. simpl.
      intros [= <-]. constructor; [exact M|]. now apply IH.
    + intros H. inversion H as [|? x ? l' M F2]; subst.
      rewrite M. simpl. apply IH in F2. rewrite F2. reflexivity.
Qed.

(** X9. When [plan_trip] answers, the POI service answered the one call made
    with some records, and the activities of the response are these records,
    validated one by one, in the same order and number. *)
Theorem plan_trip_activities
        (query : str) (response : TripPlanResponse Activity) :
  snd (plan_trip get_activities_multi_provider make_activity query)
  = Ok response ->
  exists call activities,
    fst (plan_trip get_activities_multi_provider make_activity query)
    = [call] /\
    get_activities_multi_provider
      (call_city call) (call_duration_days call) (call_limit call)
    = Ok activities /\
    Forall2 (fun a x => make_activity a = Ok x)
            activities (response_activities response) /\
    List.length (response_activities response) = List.length activities.
Proof.
  intros H. destruct (parse query) as [r|e] eqn:Q;
    [|rewrite (plan_trip_raise _ _ Q) in H; destruct e; discriminate].
  destruct (_extract_city query) as [c|] eqn:E.
  - destruct (plan_trip_some _ _ _ Q E) as (d & R & _ & P).
    rewrite P in *. simpl in *.
    destruct (get_activities_multi_provider c (or_3 d) (limit_of d))
      as [acts|e] eqn:G; simpl in H; [|destruct e; discriminate].
    destruct (activity_list make_activity acts) as [l|e] eqn:A; simpl in H;
      [|destruct e; discriminate].
    injection H as <-. simpl.
    exists (mkCall c (or_3 d) (limit_of d)), acts. simpl.
    apply activity_list_ok in A.
    repeat split; auto. symmetry. exact (Forall2_length A).
  - rewrite (plan_trip_none _ _ Q E) in H. discriminate.
Qed.

(** X10. One record of the POI service that fails validation makes the whole
    request fail, with the exception of the first such record: the error 500
    carrying its description when it is no [HTTPException].  The records
    after it are not looked at. *)
Theorem plan_trip_invalid_record
        (query c : str) (d : option Z)
        (good : list RawActivity) (bad : RawActivity)
        (rest : list RawActivity) (description : str) :
  parse query = Ok (mkParseResult c d) ->
  c <> [] ->
  get_activities_multi_provider c (or_3 d) (limit_of d)
  = Ok (good ++ bad :: rest) ->
  (forall a, In a good -> exists x, make_activity a = Ok x) ->
  make_activity bad = Raise (Error description) ->
  snd (plan_trip get_activities_multi_provider make_activity query)
  = Raise (HTTPException 500 (L "Failed to plan trip: " ++ description)).
Proof.
  intros P C G V B. unfold plan_trip.
  rewrite (body_with_city _ _ get_activities_multi_provider make_activity
             _ _ P C). simpl. rewrite G. simpl.
  assert (A : activity_list make_activity (good ++ bad :: rest)
              = Raise (Error description)).
  { clear G. induction good as [|a good IH]; simpl.
    - now rewrite B.
    - destruct (V a (or_introl eq_refl)) as [x ->]. simpl.
      rewrite IH; [reflexivity|]. intros a' I. apply V. now right. }
  now rewrite A.
Qed.

End Facts.

Lemma plan_trip_calls_witness :
  Forall (fun call => (2 <= call_limit call <= 730)%Z)
         (fst (plan_trip (fun _ _ _ => Ok []) (fun _ : unit => Ok tt)
                 (L "a week in Vienna"))).
Proof.
  apply Forall_forall. intros call I.
  destruct (plan_trip_calls unit unit (fun _ _ _ => Ok []) (fun _ => Ok tt)
              (L "a week in Vienna")) as [_ H].
  now destruct (H call I) as (_ & _ & B & _).
Defined.

Lemma plan_trip_no_city_witness :
  plan_trip (fun _ _ _ => Ok []) (fun _ : unit => Ok tt) (L "somewhere warm")
  = ([], Raise (HTTPException 400 no_city_detail)).
Proof.
  destruct (plan_trip_no_city unit unit (fun _ _ _ => Ok [])
              (fun _ => Ok tt) (L "somewhere warm")) as (H & _ & _).
  destruct (H (mkParseResult [] None)) as ([F _] & S);
    [vm_compute; reflexivity|].
  rewrite (surjective_pairing (plan_trip _ _ _)).
  rewrite F, S; reflexivity.
Defined.

Lemma plan_trip_activities_witness :
  exists call activities,
    fst (plan_trip (fun _ _ _ => Ok [1%Z; 2%Z]) (fun n : Z => Ok (n + 1)%Z)
           (L "Berlin"))
    = [call] /\
    activities = [1%Z; 2%Z].
Proof.
  destruct (plan_trip_activities Z Z (fun _ _ _ => Ok [1%Z; 2%Z])
              (fun n => Ok (n + 1)%Z) (L "Berlin")
              (mkTripPlanResponse (L "Berlin") None [2%Z; 3%Z]))
    as (call & acts & F & G & _).
  - vm_compute. reflexivity.
  - exists call, acts. split; [exact F|]. now injection G as <-.
Defined.

Lemma plan_trip_invalid_record_witness :
  snd (plan_trip (fun _ _ _ => Ok [1%Z; 0%Z; 2%Z])
         (fun n : Z => if (n =? 0)%Z then Raise (Error (L "name missing"))
                       else Ok n)
         (L "2 days in Berlin"))
  = Raise (HTTPException 500 (L "Failed to plan trip: name missing")).
Proof.
  apply (plan_trip_invalid_record Z Z _ _ (L "2 days in Berlin") (L "Berlin")
           (Some 2%Z) [1%Z] 0%Z [2%Z] (L "name missing")).
  - vm_compute. reflexivity.
  - discriminate.
  - reflexivity.
  - intros a [<-|[]]. now exists 1%Z.
  - reflexivity.
Defined.

Section More.

Variable RawActivity : Type.
Variable Activity : Type.
Variable get_activities_multi_provider :
  str -> Z -> Z -> result (list RawActivity).
Variable make_activity : RawActivity -> result Activity.

(** X11. From the text to the call: for a query that holds "<number>
    day(s)" with a number between 1 and 365 and no other digit, and whose
    first mentioned listed city is [c], [plan_trip] asks the POI service for
    [c], that number of days and twice as many activities; when the service
    and the validation succeed, the response has the city [c], that number
    of days and the validated activities. *)
Theorem plan_trip_days_in_city
        (pre ds ws post c : str) (before after : list str) (n : Z) :
  digit_free pre -> digit_free post -> blanks ws ->
  int ds = Ok n -> (1 <= n <= 365)%Z ->
  cities = before ++ c :: after ->
  mentions (pre ++ ds ++ ws ++ L "day" ++ post) c ->
  (forall c', In c' before ->
              ~ mentions (pre ++ ds ++ ws ++ L "day" ++ post) c') ->
  fst (plan_trip get_activities_multi_provider make_activity
         (pre ++ ds ++ ws ++ L "day" ++ post))
  = [mkCall c n (2 * n)] /\
  forall activities l,
    get_activities_multi_provider c n (2 * n)%Z = Ok activities ->
    activity_list make_activity activities = Ok l ->
    snd (plan_trip get_activities_multi_provider make_activity
           (pre ++ ds ++ ws ++ L "day" ++ post))
    = Ok (mkTripPlanResponse c (Some n) l).
Proof.
  intros Fp Fq Bw I R E M N.
  pose proof (duration_days_phrase _ _ _ _ _ Fp Fq Bw I R) as D.
  assert (K : _extract_city (pre ++ ds ++ ws ++ L "day" ++ post) = Some c)
    by (unfold _extract_city; now rewrite (known_city_first _ _ _ _ E M N)).
  pose proof (parse_ok _ _ D) as P. rewrite K in P.
  destruct (plan_trip_some _ _ get_activities_multi_provider make_activity
              _ _ _ P K) as (d & Rd & Er & ->).
  assert (Ed : d = Some n) by (now injection Er as _ <-).
  subst d. destruct (defaults_in_range (Some n) Rd) as (_ & _ & _ & S).
  destruct (S n eq_refl) as [-> ->]. cbn [fst snd]. split; [reflexivity|].
  intros activities l G A. rewrite G. cbn [bind]. rewrite A. reflexivity.
Qed.

(** X12. A query without an upper-case letter that mentions no listed city,
    and on which the parser returns, is refused with the error 400, and the
    POI service is not called. *)
Theorem plan_trip_lowercase_unknown (query : str) (r : ParseResult) :
  parse query = Ok r ->
  no_upper query ->
  (forall c, In c cities -> ~ mentions query c) ->
  plan_trip get_activities_multi_provider make_activity query
  = ([], Raise (HTTPException 400 no_city_detail)).
Proof.
  intros P N M. apply (plan_trip_none _ _ _ _ _ _ P).
  now apply extract_city_no_upper.
Qed.

End More.

Lemma plan_trip_days_in_city_witness :
  fst (plan_trip (fun _ _ _ => Ok []) (fun _ : unit => Ok tt)
         (L "3 days in Melbourne"))
  = [mkCall (L "Melbourne") 3 6].
Proof.
  apply (plan_trip_days_in_city unit unit (fun _ _ _ => Ok [])
           (fun _ => Ok tt) [] (L "3") (L " ") (L "s in Melbourne")
           (L "Melbourne") [] (tl cities) 3%Z).
  - intros c [].
  - apply digit_free_literal. reflexivity.
  - split; [discriminate|reflexivity].
  - reflexivity.
  - lia.
  - reflexivity.
  - exists (L "3 days in "), []. vm_compute. auto.
  - intros c' [].
Defined.

Lemma plan_trip_lowercase_unknown_witness :
  plan_trip (fun _ _ _ => Ok []) (fun _ : unit => Ok tt)
    (L "3 days in melbourn")
  = ([], Raise (HTTPException 400 no_city_detail)).
Proof.
  apply (plan_trip_lowercase_unknown unit unit _ _ _
           (mkParseResult [] (Some 3%Z))).
  - vm_compute. reflexivity.
  - intros c I.
    assert (A : forallb (fun c => negb (isupper c)) (L "3 days in melbourn")
                = true) by (vm_compute; reflexivity).
    rewrite forallb_forall in A. specialize (A c I).
    now destruct (isupper c).
  - apply not_mentioned. vm_compute. reflexivity.
Defined.

End EndpointFacts.
